(** * Shifty: the tween execution engine of [src/tweenable.js]

    A shallow embedding of the engine and the properties of its
    specification.

    Conventions of the embedding.
    - The engine (timeline, queue, passes) is embedded over exact rationals
      ([Qc], the canonical rationals, so that equality of numbers is Leibniz
      equality).  [NaN] and the infinities are outside it: an operation whose
      source computation would leave the rationals (a read of an [undefined]
      number, a division by zero) ends in [NotFinite].  The numbers of the
      source are binary64 doubles, whose operations round: a property of a
      computed value is stated with the expression the source computes,
      association included, and not with a simplification of it that holds
      in exact arithmetic only.
    - The interpolation ([tweenProp], [tweenProps]) is embedded a second time
      over binary64 floats, in the module [Binary64]: what rounding does to
      the interpolated values is stated and proved there.
    - A state object is a finite map from property names to numbers, an easing
      object a finite map from property names to curve names or functions:
      the maps hold the own properties.  In [composeEasingObject], which
      reads and writes the object it has just made from [{}], a read goes
      through [Object.prototype] ([read_property], [assign]).  The reads by
      key of [tweenProps] are reads of own properties: what such a read
      inherits for a key that the object lacks and that names a member of
      [Object.prototype] is not followed.
    - The easing registry [formulas] is imported from [./easing-functions],
      which is not part of this source file: it is a parameter.
    - [Tweenable] instances are objects with identity: the run queue holds
      references.  Instances live in a store indexed by [nat] and the queue
      is a list of indices.
    - [Tweenable.now()] reads a clock: every operation that reads it takes the
      value read as an argument.
    - Caller-supplied callbacks ([start], [step]), the filter hook points and
      the calls of the [resolve] and [reject] functions of the promise are
      recorded as events of a trace; the first such call settles the promise
      ([settlement]).  Filter sets are registered by other modules:
      [Tweenable.filters] is the empty object in this source, so
      [_applyFilter] calls nothing, and the embedding records that the hook
      point was reached.  The callbacks are observers: they do not call back
      into the engine.
    - An exception of the source ends the operation in [TypeError]; the state
      reached at the throw is not followed further. *)

From Stdlib Require Import QArith Qcanon ZArith Floats.
From stdpp Require Import gmap strings list fin_maps.

Open Scope Qc_scope.

(** ** Numbers *)

Definition num (z : Z) : Qc := Q2Qc (inject_Z z).

Definition Qcltb (a b : Qc) : bool :=
  match a ?= b with Lt => true | _ => false end.

Definition Qcleb (a b : Qc) : bool :=
  match a ?= b with Gt => false | _ => true end.

Definition Qceqb (a b : Qc) : bool :=
  match a ?= b with Eq => true | _ => false end.

(** [Math.min] and [Math.max] on two numbers. *)
Definition Math_min (a b : Qc) : Qc := if Qcltb b a then b else a.
Definition Math_max (a b : Qc) : Qc := if Qcltb a b then b else a.

(** ** Outcomes of fallible operations *)

Inductive error : Type :=
| TypeError   (* the source throws: a call of [undefined], a destructuring
                 of [undefined] *)
| NotFinite.  (* a number of the source leaves the rationals *)

Inductive result (A : Type) : Type :=
| Ok (a : A)
| Err (e : error).
Arguments Ok {A} a.
Arguments Err {A} e.

#[global] Instance result_bind : MBind result := fun A B k r =>
  match r with
  | Ok a => k a
  | Err e => Err e
  end.

(** ** Constants *)

Definition DEFAULT_EASING : string := "linear".
Definition DEFAULT_DURATION : Qc := num 500.

(** ** Easing values *)

(** An easing is a curve name or a function ([string|Function]).  A read
    through the prototype chain can also yield a member of
    [Object.prototype], named here by its property name: the function
    [Object] for ["constructor"], the function [Object.prototype.toString]
    for ["toString"], and so on. *)
Inductive easingFn : Type :=
| EasingName (name : string)
| EasingFunc (f : Qc -> Qc)
| EasingInherited (name : string).

(** A defined [easing] argument of [composeEasingObject]: one easing for all
    properties (a string or a function), or an object of easings. *)
Inductive easingArg : Type :=
| EasingOne (e : easingFn)
| EasingObject (o : gmap string easingFn).

(** JavaScript truthiness of a property read that yields an easing or
    [undefined]: the empty string is falsy, a function or an object is
    truthy. *)
Definition truthy (v : option easingFn) : bool :=
  match v with
  | None => false
  | Some (EasingName name) => negb (String.eqb name "")
  | Some (EasingFunc _) => true
  | Some (EasingInherited _) => true
  end.

(** [v || d] where [d] is a truthy easing. *)
Definition or_else (v : option easingFn) (d : easingFn) : easingFn :=
  match v with
  | Some e => if truthy v then e else d
  | None => d
  end.

(** *** Property reads and writes on a plain object *)

(** The property names of [Object.prototype], which an object created by
    [{}] inherits. *)
Definition Object_prototype : list string :=
  ["constructor"; "hasOwnProperty"; "isPrototypeOf"; "propertyIsEnumerable";
   "toLocaleString"; "toString"; "valueOf";
   "__defineGetter__"; "__defineSetter__"; "__lookupGetter__"; "__lookupSetter__";
   "__proto__"].

Definition inherited (prop : string) : bool :=
  existsb (String.eqb prop) Object_prototype.

(** [o[prop]] on a plain object: the own property, else the member of
    [Object.prototype] of that name, else [undefined]. *)
Definition read_property (o : gmap string easingFn) (prop : string) : option easingFn :=
  match o !! prop with
  | Some v => Some v
  | None => if inherited prop then Some (EasingInherited prop) else None
  end.

(** [o[prop] = v] on an object that has no own property [prop]: an own
    property is created, except for ["__proto__"], where the assignment
    goes to the setter inherited from [Object.prototype] and creates none
    (the prototype that this setter installs when [v] is a function is not
    followed). *)
Definition assign (prop : string) (v : easingFn) (o : gmap string easingFn)
    : gmap string easingFn :=
  if String.eqb prop "__proto__" then o else <[prop := v]> o.

(** ** Interpolator *)

Definition tweenProp (start end_ : Qc) (easingFunc : Qc -> Qc) (position : Qc) : Qc :=
  start + (end_ - start) * easingFunc position.

(** A read [o[key]] used as a number. *)
Definition number (v : option Qc) : result Qc :=
  match v with
  | Some q => Ok q
  | None => Err NotFinite
  end.

Section Engine.

(** The registry of named curves, [formulas]. *)
Variable formulas : gmap string (Qc -> Qc).

(** A member of [Object.prototype] used as an easing.  All but [__proto__]
    are functions, and are called with the position and without a receiver:
    [Object(position)] is a [Number] object, which the multiplication of
    [tweenProp] converts back to [position]; [isPrototypeOf(position)] is
    [false], which the multiplication converts to [0]; [toString()] is a
    string that the multiplication converts to [NaN], and the other members
    throw for want of a receiver.  [__proto__] reads as the object
    [Object.prototype], which goes to the registry under the name
    "[object Object]". *)
Definition inherited_curve (name : string) : option (Qc -> Qc) :=
  if String.eqb name "constructor" then Some (fun position => position)
  else if String.eqb name "isPrototypeOf" then Some (fun _ => 0)
  else if String.eqb name "__proto__" then formulas !! "[object Object]"
  else None.

(** [typeof easingObjectProp === 'function' ? easingObjectProp :
    formulas[easingObjectProp]].  An absent entry reads as [undefined], and
    [formulas[undefined]] is the property named "undefined". *)
Definition easingOf (easingObjectProp : option easingFn) : option (Qc -> Qc) :=
  match easingObjectProp with
  | Some (EasingFunc f) => Some f
  | Some (EasingName name) => formulas !! name
  | Some (EasingInherited name) => inherited_curve name
  | None => formulas !! "undefined"
  end.

(** Calling the looked-up curve: a call of [undefined] throws. *)
Definition callable (f : option (Qc -> Qc)) : result (Qc -> Qc) :=
  match f with
  | Some g => Ok g
  | None => Err TypeError
  end.

Definition normalizedPosition (forPosition duration timestamp : Qc) : result Qc :=
  if Qcltb forPosition timestamp then Ok 0
  else if Qceqb duration 0 then Err NotFinite
  else Ok ((forPosition - timestamp) / duration).

(** The body of the [for (const key in currentState)] loop of [tweenProps],
    on the state object accumulated so far. *)
Definition tweenProps_step (forPosition : Qc) (originalState targetState : gmap string Qc)
    (duration timestamp : Qc) (easing : gmap string easingFn)
    (key : string) (acc : result (gmap string Qc)) : result (gmap string Qc) :=
  currentState ← acc;
  easingFunc ← callable (easingOf (easing !! key));
  position ← normalizedPosition forPosition duration timestamp;
  start ← number (originalState !! key);
  end_ ← number (targetState !! key);
  Ok (<[key := tweenProp start end_ easingFunc position]> currentState).

Definition tweenProps (forPosition : Qc) (currentState originalState targetState : gmap string Qc)
    (duration timestamp : Qc) (easing : gmap string easingFn) : result (gmap string Qc) :=
  map_fold
    (fun key _ acc =>
       tweenProps_step forPosition originalState targetState duration timestamp easing key acc)
    (Ok currentState) currentState.

(** ** Easing composer *)

(** The parameter [easing = DEFAULT_EASING]: [None] is an absent argument.
    [composedEasing] starts as [{}], so [composedEasing[prop]] and
    [easing[prop]] are reads of plain objects. *)
Definition composeEasingObject (fromTweenParams : gmap string Qc) (easing_arg : option easingArg)
    : gmap string easingFn :=
  let easing := default (EasingOne (EasingName DEFAULT_EASING)) easing_arg in
  match easing with
  | EasingOne e =>
      map_fold (fun prop _ composedEasing => assign prop e composedEasing)
               ∅ fromTweenParams
  | EasingObject o =>
      map_fold (fun prop _ composedEasing =>
                  assign prop
                    (or_else (read_property composedEasing prop)
                       (or_else (read_property o prop) (EasingName DEFAULT_EASING)))
                    composedEasing)
               ∅ fromTweenParams
  end.

(** ** Instances, run queue and trace *)

(** An attachment is opaque to the engine; [None] is [undefined]. *)
Definition attachment_t : Type := option nat.

Record Tweenable : Type := mkTweenable {
  _currentState : gmap string Qc;
  _configured : bool;
  _attachment : attachment_t;
  _pausedAtTime : option Qc;      (* [None]: [null] *)
  _delay : Qc;
  _duration : Qc;
  _originalState : gmap string Qc;
  _targetState : gmap string Qc;
  _easing : gmap string easingFn;
  _promise : option nat;          (* [None]: [undefined] *)
  _timestamp : option Qc;         (* [None]: [undefined] or [NaN] *)
  _isTweening : bool;
  _isPaused : bool
}.

(** Before [setConfig] the configuration fields of the source are
    [undefined]; [_configured] tells whether they are meaningful. *)
Definition new_Tweenable (initialState : gmap string Qc) : Tweenable :=
  {| _currentState := initialState; _configured := false; _attachment := None;
     _pausedAtTime := None; _delay := 0; _duration := 0;
     _originalState := ∅; _targetState := ∅; _easing := ∅; _promise := None;
     _timestamp := None; _isTweening := false; _isPaused := false |}.

Inductive event : Type :=
| StartCalled (id : nat) (state : gmap string Qc) (attachment : attachment_t)
| StepCalled (id : nat) (state : gmap string Qc) (attachment : attachment_t) (offset : Qc)
| FilterApplied (id : nat) (filterName : string)
| Resolved (promise : option nat) (state : gmap string Qc) (attachment : attachment_t)
| Rejected (promise : option nat) (state : gmap string Qc) (attachment : attachment_t).

Record World : Type := mkWorld {
  instances : nat -> Tweenable;
  tweenQueue : list nat;
  trace : list event;       (* oldest event first *)
  promises : nat            (* promises constructed so far *)
}.

(** What a method returns. *)
Inductive value : Type :=
| This (id : nat)
| Promise (p : option nat).

Definition modify (id : nat) (f : Tweenable -> Tweenable) (w : World) : World :=
  {| instances := fun j => if Nat.eqb j id then f (instances w j) else instances w j;
     tweenQueue := tweenQueue w; trace := trace w; promises := promises w |}.

Definition emit (e : event) (w : World) : World :=
  {| instances := instances w; tweenQueue := tweenQueue w;
     trace := trace w ++ [e]; promises := promises w |}.

Definition set_queue (q : list nat) (w : World) : World :=
  {| instances := instances w; tweenQueue := q;
     trace := trace w; promises := promises w |}.

Definition set_currentState (s : gmap string Qc) (t : Tweenable) : Tweenable :=
  mkTweenable s (_configured t) (_attachment t) (_pausedAtTime t) (_delay t)
    (_duration t) (_originalState t) (_targetState t) (_easing t) (_promise t)
    (_timestamp t) (_isTweening t) (_isPaused t).

Definition set_timestamp (ts : option Qc) (t : Tweenable) : Tweenable :=
  mkTweenable (_currentState t) (_configured t) (_attachment t) (_pausedAtTime t)
    (_delay t) (_duration t) (_originalState t) (_targetState t) (_easing t)
    (_promise t) ts (_isTweening t) (_isPaused t).

Definition set_pausedAtTime (p : option Qc) (t : Tweenable) : Tweenable :=
  mkTweenable (_currentState t) (_configured t) (_attachment t) p
    (_delay t) (_duration t) (_originalState t) (_targetState t) (_easing t)
    (_promise t) (_timestamp t) (_isTweening t) (_isPaused t).

Definition set_isTweening (b : bool) (t : Tweenable) : Tweenable :=
  mkTweenable (_currentState t) (_configured t) (_attachment t) (_pausedAtTime t)
    (_delay t) (_duration t) (_originalState t) (_targetState t) (_easing t)
    (_promise t) (_timestamp t) b (_isPaused t).

Definition set_isPaused (b : bool) (t : Tweenable) : Tweenable :=
  mkTweenable (_currentState t) (_configured t) (_attachment t) (_pausedAtTime t)
    (_delay t) (_duration t) (_originalState t) (_targetState t) (_easing t)
    (_promise t) (_timestamp t) (_isTweening t) b.

(** [_applyFilter(filterName)]: the hook point is reached. *)
Definition _applyFilter (id : nat) (filterName : string) (w : World) : World :=
  emit (FilterApplied id filterName) w.

(** [get()]: a copy of the current state. *)
Definition get (id : nat) (w : World) : gmap string Qc :=
  _currentState (instances w id).

Definition set (id : nat) (state : gmap string Qc) (w : World) : World :=
  modify id (set_currentState state) w.

Definition isPlaying (id : nat) (w : World) : bool :=
  _isTweening (instances w id) && negb (_isPaused (instances w id)).

(** *** The run queue as an array *)

(** [tweenQueue.indexOf(this)]: the first index, or [-1]. *)
Fixpoint indexOf (id : nat) (q : list nat) : Z :=
  match q with
  | [] => -1
  | x :: q' =>
      if Nat.eqb x id then 0%Z
      else let i := indexOf id q' in if (i <? 0)%Z then (-1)%Z else (i + 1)%Z
  end.

(** [tweenQueue.splice(start, 1)]: a negative [start] counts from the end
    and is clamped at [0], a [start] past the end is clamped at the length;
    the one element at the resulting index, if any, is removed. *)
Definition splice1 (start : Z) (q : list nat) : list nat :=
  let len := Z.of_nat (length q) in
  let actualStart :=
    if (start <? 0)%Z then Z.max (len + start) 0 else Z.min start len in
  delete (Z.to_nat actualStart) q.

(** [tweenQueue.unshift(this)]. *)
Definition unshift (id : nat) (q : list nat) : list nat := id :: q.

(** ** The instance methods *)

(** The argument of [setConfig]; [None] is an absent property.  The
    [promise] constructor and the [start] and [step] callbacks are
    collaborators: their calls appear in the trace. *)
Record tweenConfig : Type := mkConfig {
  cfg_attachment : attachment_t;
  cfg_delay : option Qc;
  cfg_duration : option Qc;
  cfg_easing : option easingArg;
  cfg_from : option (gmap string Qc);
  cfg_to : option (gmap string Qc)
}.

Definition setConfig (id : nat) (config : tweenConfig) (w : World) : World :=
  let currentState := default (get id w) (cfg_from config) in
  let originalState := currentState in
  let targetState0 := default currentState (cfg_to config) in
  (* [{ ..._currentState, ...this._targetState }]: the target's entries win *)
  let targetState := targetState0 ∪ currentState in
  let easing := composeEasingObject currentState (cfg_easing config) in
  let t := instances w id in
  let t' :=
    {| _currentState := currentState; _configured := true;
       _attachment := cfg_attachment config; _pausedAtTime := None;
       _delay := default 0 (cfg_delay config);
       _duration := default DEFAULT_DURATION (cfg_duration config);
       _originalState := originalState; _targetState := targetState;
       _easing := easing; _promise := Some (promises w);
       _timestamp := _timestamp t; _isTweening := _isTweening t;
       _isPaused := _isPaused t |} in
  let w1 := modify id (fun _ => t') w in
  let w2 := _applyFilter id "tweenCreated" w1 in
  {| instances := instances w2; tweenQueue := tweenQueue w2;
     trace := trace w2; promises := S (promises w2) |}.

Definition pause (id : nat) (now : Qc) (w : World) : World :=
  modify id (fun t => set_isPaused true (set_pausedAtTime (Some now) t)) w.

(** [this._timestamp += Tweenable.now() - this._pausedAtTime]: [null]
    counts as [0], an [undefined] timestamp stays not-a-number. *)
Definition resume (id : nat) (now : Qc) (w : World) : World * value :=
  let t := instances w id in
  let w1 :=
    if _isPaused t
    then modify id (set_timestamp
                      ((fun ts => ts + (now - default 0 (_pausedAtTime t))) <$> _timestamp t)) w
    else w in
  let w2 := modify id (fun t => set_isTweening true (set_isPaused false t)) w1 in
  let w3 := set_queue (unshift id (tweenQueue w2)) w2 in
  (w3, Promise (_promise t)).

Definition stop (id : nat) (gotoEnd : bool) (w : World) : result World :=
  let t := instances w id in
  let w1 := modify id (fun t => set_isPaused false (set_isTweening false t)) w in
  let index := indexOf id (tweenQueue w1) in
  let w2 := set_queue (splice1 index (tweenQueue w1)) w1 in
  if negb (_configured t) then Err TypeError   (* [_resolve], [_reject] are [undefined] *)
  else if gotoEnd then
    let w3 := _applyFilter id "beforeTween" w2 in
    state ← tweenProps 1 (_currentState t) (_originalState t) (_targetState t) 1 0 (_easing t);
    let w4 := modify id (set_currentState state) w3 in
    let w5 := _applyFilter id "afterTween" w4 in
    let w6 := _applyFilter id "afterTweenEnd" w5 in
    Ok (emit (Resolved (_promise t) state (_attachment t)) w6)
  else
    Ok (emit (Rejected (_promise t) (_currentState t) (_attachment t)) w2).

Definition processTween (id : nat) (now : Qc) (w : World) : result World :=
  let t := instances w id in
  if negb (_configured t) then Err TypeError   (* [_step] is [undefined] *)
  else
    timestamp ← number (_timestamp t);
    let endTime := timestamp + _delay t + _duration t in
    let currentTime := Math_min now endTime in
    let hasEnded := Qcleb endTime currentTime in
    let offset := _duration t - (endTime - currentTime) in
    if hasEnded then
      let w1 := emit (StepCalled id (_targetState t) (_attachment t) offset) w in
      stop id true w1
    else
      let w1 := _applyFilter id "beforeTween" w in
      let '(currentTime', duration', timestamp') :=
        if Qcltb currentTime (timestamp + _delay t)
        then (1, 1, 1)
        else (currentTime, _duration t, timestamp + _delay t) in
      state ← tweenProps currentTime' (_currentState t) (_originalState t)
                (_targetState t) duration' timestamp' (_easing t);
      let w2 := modify id (set_currentState state) w1 in
      let w3 := _applyFilter id "afterTween" w2 in
      Ok (emit (StepCalled id state (_attachment t) offset) w3).

(** [tween(config)].  The clock is read for the timestamp ([now]) and again
    inside [resume] ([now']).  [config = None] is an absent argument, which
    [setConfig] cannot destructure. *)
Definition tween (id : nat) (config : option tweenConfig) (now now' : Qc) (w : World)
    : result (World * value) :=
  let t := instances w id in
  if _isTweening t then Ok (w, This id)
  else
    w1 ← (match config with
          | Some c => Ok (setConfig id c w)
          | None => if negb (_configured t) then Err TypeError else Ok w
          end);
    let w2 := modify id (set_timestamp (Some now)) w1 in
    let w3 := emit (StartCalled id (get id w2) (_attachment t)) w2 in
    Ok (resume id now' w3).

(** [seek(millisecond)].  The clock is read at entry ([currentTime]) and
    again inside [pause] ([now']). *)
Definition seek (id : nat) (millisecond : Qc) (currentTime now' : Qc) (w : World)
    : result World :=
  let millisecond := Math_max millisecond 0 in
  let t := instances w id in
  if match _timestamp t with
     | Some ts => Qceqb (ts + millisecond) 0
     | None => false
     end
  then Ok w
  else
    let w1 := modify id (set_timestamp (Some (currentTime - millisecond))) w in
    if negb (isPlaying id w1) then
      let w2 := modify id (fun t => set_isPaused false (set_isTweening true t)) w1 in
      w3 ← processTween id currentTime w2;
      Ok (pause id now' w3)
    else Ok w1.

(** [new Tweenable(initialState = {}, config = undefined)], the new object
    being the store cell [id]. *)
Definition construct (id : nat) (initialState : option (gmap string Qc))
    (config : option tweenConfig) (w : World) : World :=
  let w1 := modify id (fun _ => new_Tweenable (default ∅ initialState)) w in
  match config with
  | Some c => setConfig id c w1
  | None => w1
  end.

(** [dispose()]: every own property is deleted, so every field reads as
    [undefined] again; the methods stay.  An [undefined] current state has no
    keys to enumerate and spreads to [{}]. *)
Definition dispose (id : nat) (w : World) : World :=
  modify id (fun _ => new_Tweenable ∅) w.

(** [{}] as a configuration. *)
Definition config_empty : tweenConfig :=
  {| cfg_attachment := None; cfg_delay := None; cfg_duration := None;
     cfg_easing := None; cfg_from := None; cfg_to := None |}.

(** The exported function [tween(config = {})]: a new instance (the store
    cell [id]) is started, and its promise is returned with the instance
    attached to it. *)
Definition tween_standalone (id : nat) (config : option tweenConfig) (now now' : Qc)
    (w : World) : result (World * value) :=
  tween id (Some (default config_empty config)) now now' (construct id None None w).

(** ** Scheduler loop *)

(** [for (let i = tweenQueue.length; i > 0; i--)] on the live queue.  Reading
    past the end of the array yields [undefined], whose [isPlaying] cannot be
    called. *)
Fixpoint processQueue_loop (now : Qc) (i : nat) (w : World) : result World :=
  match i with
  | O => Ok w
  | S i' =>
      match tweenQueue w !! i' with
      | None => Err TypeError
      | Some tween =>
          if negb (isPlaying tween w) then processQueue_loop now i' w
          else w' ← processTween tween now w; processQueue_loop now i' w'
      end
  end.

Definition processQueue (now : Qc) (w : World) : result World :=
  processQueue_loop now (length (tweenQueue w)) w.

End Engine.

(** * The interpolation over binary64 *)

(** [tweenProp] and [tweenProps] once more, on the doubles of the source.
    Nothing leaves the numbers here: an [undefined] operand is [NaN], a
    division by zero an infinity or [NaN].  The only failure is the call of
    an easing that is not a function. *)
Module Binary64.

Local Open Scope float_scope.

Inductive easingFn : Type :=
| EasingName (name : string)
| EasingFunc (f : float -> float).

Definition tweenProp (start end_ : float) (easingFunc : float -> float) (position : float)
    : float :=
  start + (end_ - start) * easingFunc position.

(** A read [o[key]] used as a number: [undefined] is [NaN] in arithmetic. *)
Definition number (v : option float) : float := default nan v.

Section Pass.

Variable formulas : gmap string (float -> float).

Definition easingOf (easingObjectProp : option easingFn) : option (float -> float) :=
  match easingObjectProp with
  | Some (EasingFunc f) => Some f
  | Some (EasingName name) => formulas !! name
  | None => formulas !! "undefined"
  end.

Definition normalizedPosition (forPosition duration timestamp : float) : float :=
  if forPosition <? timestamp then 0 else (forPosition - timestamp) / duration.

(** The body of the loop of [tweenProps]; [None] is the [TypeError] of a
    call of [undefined]. *)
Definition tweenProps_step (forPosition : float) (originalState targetState : gmap string float)
    (duration timestamp : float) (easing : gmap string easingFn)
    (key : string) (acc : option (gmap string float)) : option (gmap string float) :=
  match acc, easingOf (easing !! key) with
  | Some currentState, Some easingFunc =>
      Some (<[key := tweenProp (number (originalState !! key)) (number (targetState !! key))
                       easingFunc (normalizedPosition forPosition duration timestamp)]>
              currentState)
  | _, _ => None
  end.

Definition tweenProps (forPosition : float)
    (currentState originalState targetState : gmap string float)
    (duration timestamp : float) (easing : gmap string easingFn)
    : option (gmap string float) :=
  map_fold
    (fun key _ acc =>
       tweenProps_step forPosition originalState targetState duration timestamp easing key acc)
    (Some currentState) currentState.

End Pass.

End Binary64.

(** * Notions of the specification *)

Section Notions.

Variable formulas : gmap string (Qc -> Qc).

(** The value written under [key] by a pass at [position], when the curve
    resolves and both end points are numbers. *)
Definition tweened (originalState targetState : gmap string Qc)
    (easing : gmap string easingFn) (position : Qc) (key : string) : option Qc :=
  match easingOf formulas (easing !! key), originalState !! key, targetState !! key with
  | Some f, Some a, Some b => Some (tweenProp a b f position)
  | _, _, _ => None
  end.

(** Successive ticks of one instance, at the given times. *)
Fixpoint ticks (id : nat) (nows : list Qc) (w : World) : result World :=
  match nows with
  | [] => Ok w
  | now :: rest => w' ← processTween formulas id now w; ticks id rest w'
  end.

(** The walk of the specification: every entry of a snapshot of the queue,
    in the given order, is skipped when it is not playing and ticked with the
    one shared [now] otherwise. *)
Fixpoint tick_each (now : Qc) (entries : list nat) (w : World) : result World :=
  match entries with
  | [] => Ok w
  | tween :: rest =>
      if negb (isPlaying tween w) then tick_each now rest w
      else w' ← processTween formulas tween now w; tick_each now rest w'
  end.

End Notions.

(** Every tracked key (a key of the current state) has a start value, a
    target value and a curve that resolves. *)
Definition resolves (formulas : gmap string (Qc -> Qc)) (t : Tweenable) : Prop :=
  _configured t = true
  /\ forall key, is_Some (_currentState t !! key) ->
       is_Some (_originalState t !! key)
       /\ is_Some (_targetState t !! key)
       /\ is_Some (easingOf formulas (_easing t !! key)).

(** The fate of promise [p] after the calls recorded in a trace: a promise
    is settled by the first call of its [resolve] or [reject], and a later
    call has no effect. *)
Definition settles (p : nat) (e : event) : bool :=
  match e with
  | Resolved (Some q) _ _ => Nat.eqb q p
  | Rejected (Some q) _ _ => Nat.eqb q p
  | _ => false
  end.

Definition settlement (p : nat) (calls : list event) : option event :=
  List.find (settles p) calls.

(** From [w] to [w'] instance [id] was driven to completion: every tracked
    key holds what [tweenProp] computes at position 1 from the original and
    the target value, the instance is not playing, and the last call made is
    that of the [resolve] function of its promise, with the final state; this
    call settles the promise if nothing has settled it before. *)
Definition completed (formulas : gmap string (Qc -> Qc)) (id : nat) (w w' : World) : Prop :=
  let t := instances w id in
  let t' := instances w' id in
  (forall key f a b,
     is_Some (_currentState t !! key) ->
     easingOf formulas (_easing t !! key) = Some f ->
     _originalState t !! key = Some a ->
     _targetState t !! key = Some b ->
     _currentState t' !! key = Some (tweenProp a b f 1))
  /\ (forall key, is_Some (_currentState t' !! key) <-> is_Some (_currentState t !! key))
  /\ _originalState t' = _originalState t
  /\ _targetState t' = _targetState t
  /\ isPlaying id w' = false
  /\ (exists between,
        trace w' = trace w ++ between
                     ++ [Resolved (_promise t) (_currentState t') (_attachment t)])
  /\ forall p, _promise t = Some p ->
       settlement p (trace w) = None ->
       settlement p (trace w')
       = Some (Resolved (Some p) (_currentState t') (_attachment t)).



(** [t'] has the configuration, the timestamp and the tracked keys of [t]. *)
Definition same_config (t t' : Tweenable) : Prop :=
  _configured t' = _configured t
  /\ _attachment t' = _attachment t
  /\ _delay t' = _delay t
  /\ _duration t' = _duration t
  /\ _originalState t' = _originalState t
  /\ _targetState t' = _targetState t
  /\ _easing t' = _easing t
  /\ _promise t' = _promise t
  /\ _timestamp t' = _timestamp t
  /\ forall key, is_Some (_currentState t' !! key) <-> is_Some (_currentState t !! key).

(** The position on the curve at which a tick at [now] interpolates, with
    the comparisons and the expressions of [processTween] and [tweenProps]:
    the end once [Math.min(now, endTime) >= endTime], the start while
    [now < timestamp + delay], and [(now - (timestamp + delay)) / duration]
    in between. *)
Definition position_of (now timestamp delay duration : Qc) : Qc :=
  let endTime := timestamp + delay + duration in
  let currentTime := Math_min now endTime in
  if Qcleb endTime currentTime then 1
  else if Qcltb currentTime (timestamp + delay) then 0
  else (currentTime - (timestamp + delay)) / duration.

(** * Example worlds *)

Definition registry : gmap string (Qc -> Qc) := {[ "linear" := fun p : Qc => p ]}.

(** No instance configured, nothing queued. *)
Definition world0 : World :=
  {| instances := fun _ => new_Tweenable ∅; tweenQueue := []; trace := []; promises := O |}.

Definition world_of {A} (r : result (World * A)) : World :=
  match r with Ok (w, _) => w | Err _ => world0 end.

Definition returned {A} (r : result (World * A)) : option A :=
  match r with Ok (_, a) => Some a | Err _ => None end.

(** [{ from: {x: 0}, to: {x: 10}, duration: 100, easing: 'linear' }] *)
Definition config_linear : tweenConfig :=
  {| cfg_attachment := None; cfg_delay := None; cfg_duration := Some (num 100);
     cfg_easing := Some (EasingOne (EasingName "linear"));
     cfg_from := Some {[ "x" := num 0 ]}; cfg_to := Some {[ "x" := num 10 ]} |}.

(** [{ from: {x: 0}, to: {x: 10}, delay: 100, duration: 100,
       easing: p => p + 1 }]: a curve with [f(0) = 1]. *)
Definition config_offset_curve : tweenConfig :=
  {| cfg_attachment := None; cfg_delay := Some (num 100); cfg_duration := Some (num 100);
     cfg_easing := Some (EasingOne (EasingFunc (fun p => p + 1)));
     cfg_from := Some {[ "x" := num 0 ]}; cfg_to := Some {[ "x" := num 10 ]} |}.

(** Instance 0 started at time 0 with [config_linear]. *)
Definition world_linear : World := world_of (tween 0 (Some config_linear) 0 0 world0).

(** Instance 0 started at time 0 with [config_offset_curve]. *)
Definition world_offset_curve : World :=
  world_of (tween 0 (Some config_offset_curve) 0 0 world0).

Definition config_delayed : tweenConfig :=
  {| cfg_attachment := None; cfg_delay := Some (num 100); cfg_duration := Some (num 100);
     cfg_easing := Some (EasingOne (EasingName "linear"));
     cfg_from := Some {[ "x" := num 0 ]}; cfg_to := Some {[ "x" := num 10 ]} |}.

(** Instance 0 started at time 0 with a delay of 100. *)
Definition world_delayed : World := world_of (tween 0 (Some config_delayed) 0 0 world0).

(** [world_linear] with instance 0 paused at time 30. *)
Definition world_paused : World := pause 0 (num 30) world_linear.

(** Instance 1 started at time 0; instance 0 configured and never started. *)
Definition world_idle : World :=
  setConfig 0 config_linear (world_of (tween 1 (Some config_linear) 0 0 world0)).

(** Instances 0 and then 1 started. *)
Definition world_two : World :=
  world_of (tween 1 (Some config_linear) (num 10) (num 10) world_linear).

(** Reading an outcome: whether the operation returned, and the world it
    returned. *)
Definition succeeds {A} (r : result A) : bool :=
  match r with Ok _ => true | Err _ => false end.

Definition outcome (r : result World) : World :=
  match r with Ok w => w | Err _ => world0 end.

(** [{x: 0}] and the easing object [{x: ''}]. *)
Definition state_x : gmap string Qc := {[ "x" := 0 ]}.
Definition easing_empty_name : gmap string easingFn := {[ "x" := EasingName "" ]}.

(** [{x: 10}], [{x: 'linear'}] and [{x: 'easeInQuad'}]. *)
Definition target_x : gmap string Qc := {[ "x" := num 10 ]}.
Definition easing_linear_x : gmap string easingFn := {[ "x" := EasingName "linear" ]}.
Definition easing_quad_x : gmap string easingFn := {[ "x" := EasingName "easeInQuad" ]}.

Definition outcome_state (r : result (gmap string Qc)) : gmap string Qc :=
  match r with Ok s => s | Err _ => ∅ end.

(** [{y: 0}]. *)
Definition state_y : gmap string Qc := {[ "y" := 0 ]}.

(** [{constructor: 0}] and the easing object [{constructor: 'easeInQuad'}]. *)
Definition state_constructor : gmap string Qc := {[ "constructor" := 0 ]}.
Definition easing_quad_constructor : gmap string easingFn :=
  {[ "constructor" := EasingName "easeInQuad" ]}.

(** [world_linear] after [stop()] at once and a second [tween()], without a
    configuration, at time 200. *)
Definition world_restarted : World :=
  world_of (tween 0 None (num 200) (num 200) (outcome (stop registry 0 false world_linear))).

(** The registry and the states [{x: 0.7}], [{x: 0.1}] and [{x: 'linear'}] in
    binary64. *)
Definition registry64 : gmap string (float -> float) := {[ "linear" := fun p : float => p ]}.
Definition state64_from : gmap string float := {[ "x" := 0x1.6666666666666p-1%float ]}.
Definition state64_to : gmap string float := {[ "x" := 0x1.999999999999ap-4%float ]}.
Definition easing64_linear : gmap string Binary64.easingFn :=
  {[ "x" := Binary64.EasingName "linear" ]}.

(** * Properties *)

(** ** Comparisons of numbers *)

Lemma Qcltb_lt (a b : Qc) : Qcltb a b = true <-> a < b.
Proof.
  unfold Qcltb. rewrite Qclt_alt. destruct (a ?= b); split; congruence.
Qed.

Lemma Qcleb_le (a b : Qc) : Qcleb a b = true <-> a <= b.
Proof.
  unfold Qcleb. rewrite Qcle_alt. destruct (a ?= b); split; congruence.
Qed.

Lemma Qceqb_eq (a b : Qc) : Qceqb a b = true <-> a = b.
Proof.
  unfold Qceqb. rewrite Qceq_alt. destruct (a ?= b); split; congruence.
Qed.

Lemma Qcltb_ge (a b : Qc) : Qcltb a b = false <-> b <= a.
Proof.
  rewrite <- not_true_iff_false, Qcltb_lt. split.
  - apply Qcnot_lt_le.
  - apply Qcle_not_lt.
Qed.

Lemma Qcleb_gt (a b : Qc) : Qcleb a b = false <-> b < a.
Proof.
  rewrite <- not_true_iff_false, Qcleb_le. split.
  - apply Qcnot_le_lt.
  - apply Qclt_not_le.
Qed.




Lemma Math_min_l (a b : Qc) : a < b -> Math_min a b = a.
Proof.
  intros H. unfold Math_min.
  destruct (Qcltb b a) eqn:E; [|reflexivity].
  apply Qcltb_lt in E. exfalso. exact (Qclt_not_le _ _ E (Qclt_le_weak _ _ H)).
Qed.

Lemma Math_min_r (a b : Qc) : b <= a -> Math_min a b = b.
Proof.
  intros H. unfold Math_min.
  destruct (Qcltb b a) eqn:E; [reflexivity|].
  apply Qcltb_ge in E. apply Qcle_antisym; assumption.
Qed.

Lemma Math_max_clamps (m : Qc) :
  0 <= Math_max m 0 /\ (m < 0 -> Math_max m 0 = 0) /\ (0 <= m -> Math_max m 0 = m).
Proof.
  unfold Math_max. destruct (Qcltb m 0) eqn:E.
  - apply Qcltb_lt in E. repeat split.
    + apply Qcle_refl.
    + intros H. exfalso. exact (Qclt_not_le _ _ E H).
  - apply Qcltb_ge in E. repeat split.
    + exact E.
    + intros H. exfalso. exact (Qclt_not_le _ _ H E).
Qed.

(** ** Interpolator *)

Lemma tweenProp_at_0 (start end_ : Qc) (easingFunc : Qc -> Qc) :
  easingFunc 0 = 0 -> tweenProp start end_ easingFunc 0 = start.
Proof. unfold tweenProp. intros ->. ring. Qed.

(** *** Binary64 *)

(** Multiplication by [1] is exact. *)
Lemma digits2_pos_shift (m : positive) :
  Z.pos (digits2_pos (Pos.iter xO m 52)) = (Z.pos (digits2_pos m) + 52)%Z.
Proof. cbn. lia. Qed.

Lemma shr_shift (m : positive) :
  SpecFloat.iter_pos shr_1 52
    {| shr_m := Z.pos (Pos.iter xO m 52); shr_r := false; shr_s := false |}
  = {| shr_m := Z.pos m; shr_r := false; shr_s := false |}.
Proof. reflexivity. Qed.

Lemma SFmul_one_r (x : spec_float) :
  valid_binary x = true -> SF64mul x (S754_finite false 4503599627370496 (-52)) = x.
Proof.
  destruct x as [s|s| |s m e]; intros Hv; try (cbn; by rewrite ?xorb_false_r).
  unfold SF64mul, SFmul. rewrite xorb_false_r.
  cbn [SpecFloat.valid_binary] in Hv. unfold bounded, canonical_mantissa in Hv.
  apply andb_prop in Hv as [Hc Hb]. apply Z.eqb_eq in Hc.
  unfold binary_round_aux, shr_fexp.
  replace (m * 4503599627370496)%positive with (Pos.iter xO m 52) by (cbn; lia).
  cbn [Zdigits2]. rewrite digits2_pos_shift.
  replace (Z.pos (digits2_pos m) + 52 + (e + -52))%Z
    with (Z.pos (digits2_pos m) + e)%Z by lia.
  rewrite Hc.
  replace (e - (e + -52))%Z with 52%Z by lia.
  cbn [shr shr_record_of_loc]. rewrite shr_shift.
  cbn [shr_m loc_of_shr_record round_nearest_even Zdigits2].
  replace (e + -52 + 52)%Z with e by lia. rewrite Hc, Z.sub_diag.
  cbn [shr shr_m]. by rewrite Hb.
Qed.

Lemma float_mul_1_r (x : float) : (x * 1)%float = x.
Proof.
  apply Prim2SF_inj. rewrite mul_spec. apply SFmul_one_r, Prim2SF_valid.
Qed.

(** The comparison [===] of two doubles, on their specification. *)
Lemma SFeqb_refl (x : spec_float) : x <> S754_nan -> SFeqb x x = true.
Proof.
  destruct x as [s|s| |s m e]; intros H; try done.
  - by destruct s.
  - unfold SFeqb, SFcompare. rewrite Z.compare_refl, Pos.compare_cont_refl. by destruct s.
Qed.

Lemma SFeqb_zero (x : spec_float) (s : bool) :
  SFeqb x (S754_zero s) = true -> exists s', x = S754_zero s'.
Proof.
  destruct x as [s'|s'| |s' m e]; intros H.
  - by exists s'.
  - destruct s'; discriminate.
  - discriminate.
  - destruct s'; discriminate.
Qed.

Lemma float_eqb_one (z : float) : (z =? 1)%float = true -> z = 1%float.
Proof.
  rewrite FloatAxioms.eqb_spec. intros H. apply Prim2SF_inj.
  change (Prim2SF 1) with (S754_finite false 4503599627370496 (-52)) in *.
  destruct (Prim2SF z) as [s|s| |s m e]; try discriminate.
  - destruct s; discriminate.
  - unfold SFeqb, SFcompare in H. destruct s; [discriminate|].
    destruct (e ?= -52)%Z eqn:He; try discriminate.
    apply Z.compare_eq in He as ->.
    destruct (Pos.compare_cont Eq m 4503599627370496) eqn:Hm; try discriminate.
    apply Pos.compare_eq in Hm as ->. reflexivity.
Qed.

(** [Number.isFinite]: a zero or a finite non-zero double. *)
Lemma is_finite_spec (x : float) :
  is_finite x = true ->
  (exists s, Prim2SF x = S754_zero s) \/ (exists s m e, Prim2SF x = S754_finite s m e).
Proof.
  unfold is_finite, is_nan, is_infinity. rewrite !FloatAxioms.eqb_spec, abs_spec.
  destruct (Prim2SF x) as [s|s| |s m e].
  - left. eexists. reflexivity.
  - destruct s; cbn; discriminate.
  - cbn. discriminate.
  - right. do 3 eexists. reflexivity.
Qed.

(** At a position where the curve is [0] the start value comes back, as long
    as the difference of the end points has not overflowed. *)
Lemma tweenProp64_at_0 (start end_ : float) (easingFunc : float -> float) (position : float) :
  (easingFunc position =? 0)%float = true ->
  is_finite (end_ - start) = true ->
  (Binary64.tweenProp start end_ easingFunc position =? start)%float = true.
Proof.
  unfold Binary64.tweenProp. generalize (easingFunc position). intros z Hz Hfin.
  rewrite FloatAxioms.eqb_spec in Hz. apply SFeqb_zero in Hz as [sz Hz].
  rewrite FloatAxioms.eqb_spec, add_spec, mul_spec, Hz.
  pose proof (sub_spec end_ start) as Hsub.
  assert (Hs : (exists s, Prim2SF start = S754_zero s)
               \/ (exists s m e, Prim2SF start = S754_finite s m e)).
  { destruct (Prim2SF start) as [s'|s'| |s' m' e'].
    - left. eexists. reflexivity.
    - exfalso.
      destruct (is_finite_spec _ Hfin) as [[s H]|(s & m & e & H)]; rewrite H in Hsub;
        destruct (Prim2SF end_) as [a|a| |a b c]; cbn in Hsub; try discriminate;
        destruct a, s'; discriminate.
    - exfalso.
      destruct (is_finite_spec _ Hfin) as [[s H]|(s & m & e & H)]; rewrite H in Hsub;
        destruct (Prim2SF end_) as [a|a| |a b c]; cbn in Hsub; discriminate.
    - right. do 3 eexists. reflexivity. }
  assert (Hm : exists s, SF64mul (Prim2SF (end_ - start)) (S754_zero sz) = S754_zero s).
  { destruct (is_finite_spec _ Hfin) as [[s ->]|(s & m & e & ->)]; eexists; reflexivity. }
  destruct Hm as [sm ->].
  destruct Hs as [[s ->]|(s & m & e & ->)].
  - by destruct s, sm.
  - apply (SFeqb_refl (S754_finite s m e)). discriminate.
Qed.

(** At a position where the curve is [1] the result is
    [start + (end - start)]: the multiplication is exact, the subtraction
    and the addition round. *)
Lemma tweenProp64_at_1 (start end_ : float) (easingFunc : float -> float) (position : float) :
  (easingFunc position =? 1)%float = true ->
  Binary64.tweenProp start end_ easingFunc position = (start + (end_ - start))%float.
Proof.
  intros H. apply float_eqb_one in H. unfold Binary64.tweenProp.
  by rewrite H, float_mul_1_r.
Qed.

(** C7, on the doubles of the source: [tweenProp] is the pure function
    [start + (end - start) * f(position)] at every position, inside [0,1] or
    not.  Where [f] is [0] it yields [start] (compared with [===], and
    provided [end - start] is finite); where [f] is [1] it yields
    [start + (end - start)], the end value as far as the rounding of the
    subtraction and of the addition allows. *)
Theorem tweenProp_binary64 (start end_ : float) (easingFunc : float -> float)
    (position : float) :
  Binary64.tweenProp start end_ easingFunc position
  = (start + (end_ - start) * easingFunc position)%float
  /\ ((easingFunc 0 =? 0)%float = true ->
      is_finite (end_ - start) = true ->
      (Binary64.tweenProp start end_ easingFunc 0 =? start)%float = true)
  /\ ((easingFunc 1 =? 1)%float = true ->
      Binary64.tweenProp start end_ easingFunc 1 = (start + (end_ - start))%float).
Proof.
  split; [reflexivity|]. split.
  - apply tweenProp64_at_0.
  - apply tweenProp64_at_1.
Qed.

(** From 3 to 10 on the curve [p * p]. *)
Lemma tweenProp_binary64_witness :
  (Binary64.tweenProp 3 10 (fun p => p * p) 0 =? 3)%float = true
  /\ (Binary64.tweenProp 3 10 (fun p => p * p) 1 = 3 + (10 - 3))%float.
Proof.
  destruct (tweenProp_binary64 3 10 (fun p => (p * p)%float) 0) as (_ & H0 & H1).
  split; [apply H0 | apply H1]; reflexivity.
Defined.

(** C7 as the specification words it fails at position 1: with the linear
    curve, whose value at 1 is 1, the interpolation from 0.7 to 0.1 yields
    0.09999999999999998, and the interpolation from 1e16 to 1 yields 0. *)
Lemma tweenProp_end_counterexample :
  ((fun p : float => p) 1 =? 1)%float = true
  /\ Binary64.tweenProp 0x1.6666666666666p-1 0x1.999999999999ap-4 (fun p => p) 1
     = 0x1.9999999999998p-4%float
  /\ (Binary64.tweenProp 0x1.6666666666666p-1 0x1.999999999999ap-4 (fun p => p) 1
      =? 0x1.999999999999ap-4)%float = false
  /\ Binary64.tweenProp 1e16 1 (fun p => p) 1 = 0%float
  /\ (Binary64.tweenProp 1e16 1 (fun p => p) 1 =? 1)%float = false.
Proof. repeat split. Qed.

(** ** The interpolation pass *)

Section Interpolation.

Variable formulas : gmap string (Qc -> Qc).

Lemma tweenProps_step_ok forPosition orig tgt duration timestamp easing key acc position v :
  normalizedPosition forPosition duration timestamp = Ok position ->
  tweened formulas orig tgt easing position key = Some v ->
  tweenProps_step formulas forPosition orig tgt duration timestamp easing key (Ok acc)
  = Ok (<[key := v]> acc).
Proof.
  intros Hp Hv. unfold tweenProps_step, tweened in *. cbn.
  destruct (easingOf formulas (easing !! key)); [|discriminate].
  destruct (orig !! key); [|discriminate].
  destruct (tgt !! key); [|discriminate].
  cbn. rewrite Hp. cbn. congruence.
Qed.

Lemma tweenProps_fold_ok forPosition orig tgt duration timestamp easing position
    (c0 m : gmap string Qc) :
  normalizedPosition forPosition duration timestamp = Ok position ->
  (forall key, is_Some (m !! key) -> is_Some (tweened formulas orig tgt easing position key)) ->
  exists s,
    map_fold (fun key _ acc =>
                tweenProps_step formulas forPosition orig tgt duration timestamp easing key acc)
             (Ok c0) m = Ok s
    /\ forall key, s !! key = match m !! key with
                              | Some _ => tweened formulas orig tgt easing position key
                              | None => c0 !! key
                              end.
Proof.
  intros Hp. revert m.
  apply (map_fold_weak_ind (fun r (m : gmap string Qc) =>
    (forall key, is_Some (m !! key) -> is_Some (tweened formulas orig tgt easing position key)) ->
    exists s, r = Ok s
      /\ forall key, s !! key = match m !! key with
                                | Some _ => tweened formulas orig tgt easing position key
                                | None => c0 !! key
                                end)).
  - intros _. exists c0. split; [reflexivity|]. intros key. by rewrite lookup_empty.
  - intros i x m r Hi IH Hall.
    destruct IH as (s & -> & Hs).
    { intros key Hk. apply Hall. destruct (decide (i = key)) as [->|Hne].
      - rewrite Hi in Hk. by destruct Hk.
      - by rewrite lookup_insert_ne. }
    destruct (Hall i) as [v Hv]; [rewrite lookup_insert_eq; eauto|].
    exists (<[i := v]> s). split.
    + by apply (tweenProps_step_ok _ _ _ _ _ _ _ _ position).
    + intros key. destruct (decide (i = key)) as [->|Hne].
      * by rewrite !lookup_insert_eq.
      * rewrite !lookup_insert_ne by done. apply Hs.
Qed.

(** A pass over a state whose tracked keys all have a curve and both end
    points returns, and writes exactly the tracked keys. *)
Lemma tweenProps_ok forPosition cur orig tgt duration timestamp easing position :
  normalizedPosition forPosition duration timestamp = Ok position ->
  (forall key, is_Some (cur !! key) -> is_Some (tweened formulas orig tgt easing position key)) ->
  exists s,
    tweenProps formulas forPosition cur orig tgt duration timestamp easing = Ok s
    /\ forall key, s !! key = match cur !! key with
                              | Some _ => tweened formulas orig tgt easing position key
                              | None => None
                              end.
Proof.
  intros Hp Hall.
  destruct (tweenProps_fold_ok forPosition orig tgt duration timestamp easing position
              cur cur Hp Hall) as (s & Hs & Hl).
  exists s. split; [exact Hs|].
  intros key. rewrite Hl. destruct (cur !! key) eqn:E; [reflexivity|reflexivity].
Qed.


End Interpolation.

(** *** The pass in binary64 *)

Section Interpolation64.

Variable formulas : gmap string (float -> float).

Lemma tweenProps64_fold forPosition orig tgt duration timestamp easing
    (c0 m : gmap string float) :
  (forall key, is_Some (m !! key) -> is_Some (Binary64.easingOf formulas (easing !! key))) ->
  exists s,
    map_fold (fun key _ acc =>
                Binary64.tweenProps_step formulas forPosition orig tgt duration timestamp
                  easing key acc)
             (Some c0) m = Some s
    /\ forall key,
         s !! key
         = match m !! key with
           | Some _ =>
               (fun f => Binary64.tweenProp (Binary64.number (orig !! key))
                           (Binary64.number (tgt !! key)) f
                           (Binary64.normalizedPosition forPosition duration timestamp))
                 <$> Binary64.easingOf formulas (easing !! key)
           | None => c0 !! key
           end.
Proof.
  revert m.
  apply (map_fold_weak_ind (fun r (m : gmap string float) =>
    (forall key, is_Some (m !! key) ->
       is_Some (Binary64.easingOf formulas (easing !! key))) ->
    exists s, r = Some s
      /\ forall key,
           s !! key
           = match m !! key with
             | Some _ =>
                 (fun f => Binary64.tweenProp (Binary64.number (orig !! key))
                             (Binary64.number (tgt !! key)) f
                             (Binary64.normalizedPosition forPosition duration timestamp))
                   <$> Binary64.easingOf formulas (easing !! key)
             | None => c0 !! key
             end)).
  - intros _. exists c0. split; [reflexivity|]. intros key. by rewrite lookup_empty.
  - intros i x m r Hi IH Hall.
    destruct IH as (s & -> & Hs).
    { intros key Hk. apply Hall. destruct (decide (i = key)) as [->|Hne].
      - rewrite Hi in Hk. by destruct Hk.
      - by rewrite lookup_insert_ne. }
    destruct (Hall i) as [f Hf]; [rewrite lookup_insert_eq; eauto|].
    unfold Binary64.tweenProps_step. rewrite Hf.
    eexists. split; [reflexivity|].
    intros key. destruct (decide (i = key)) as [->|Hne].
    + by rewrite !lookup_insert_eq, Hf.
    + rewrite !lookup_insert_ne by done. apply Hs.
Qed.

(** The final pass of [stop(true)], [tweenProps(1, currentState,
    originalState, targetState, 1, 0, easing)], on doubles: it returns when
    every tracked key has a curve, and writes at each tracked key the value
    of [tweenProp] at position 1, which is
    [originalState[k] + (targetState[k] - originalState[k])] for a curve
    that is [1] at [1]. *)
Lemma final_pass_binary64 (currentState originalState targetState : gmap string float)
    (easing : gmap string Binary64.easingFn) :
  (forall key, is_Some (currentState !! key) ->
     is_Some (Binary64.easingOf formulas (easing !! key))) ->
  exists state,
    Binary64.tweenProps formulas 1 currentState originalState targetState 1 0 easing
    = Some state
    /\ (forall key, is_Some (state !! key) <-> is_Some (currentState !! key))
    /\ forall key f a b,
         is_Some (currentState !! key) ->
         Binary64.easingOf formulas (easing !! key) = Some f ->
         originalState !! key = Some a ->
         targetState !! key = Some b ->
         state !! key = Some (Binary64.tweenProp a b f 1)
         /\ ((f 1 =? 1)%float = true -> state !! key = Some (a + (b - a))%float).
Proof.
  intros Hall.
  destruct (tweenProps64_fold 1 originalState targetState 1 0 easing
              currentState currentState Hall) as (state & Hs & Hl).
  exists state. split; [exact Hs|]. split.
  - intros key. rewrite Hl. destruct (currentState !! key) as [v|] eqn:Hk.
    + split; [by eexists|]. intros _.
      destruct (Hall key) as [f ->]; [rewrite Hk; by eexists|]. by eexists.
    + reflexivity.
  - intros key f a b [v Hk] Hf Ha Hb.
    assert (Hkey : state !! key = Some (Binary64.tweenProp a b f 1)).
    { rewrite Hl, Hk, Hf, Ha, Hb. reflexivity. }
    split; [exact Hkey|].
    intros H1. rewrite Hkey. f_equal. by apply tweenProp64_at_1.
Qed.

End Interpolation64.

(** ** Easing composer *)

Lemma inherited___proto__ (key : string) : inherited key = false -> key <> "__proto__".
Proof. by intros H ->. Qed.

Lemma lookup_assign (prop key : string) (v : easingFn) (o : gmap string easingFn) :
  assign prop v o !! key
  = if decide (prop = key)
    then (if String.eqb key "__proto__" then o !! key else Some v)
    else o !! key.
Proof.
  unfold assign. destruct (decide (prop = key)) as [->|Hne].
  - destruct (String.eqb key "__proto__"); [reflexivity|by rewrite lookup_insert_eq].
  - destruct (String.eqb prop "__proto__"); [reflexivity|by rewrite lookup_insert_ne].
Qed.

Lemma composeEasingObject_one (fromTweenParams : gmap string Qc) (e : easingFn) key :
  map_fold (fun prop _ (composedEasing : gmap string easingFn) => assign prop e composedEasing)
           ∅ fromTweenParams !! key
  = match fromTweenParams !! key with
    | Some _ => if String.eqb key "__proto__" then None else Some e
    | None => None
    end.
Proof.
  revert key.
  apply (map_fold_weak_ind (fun (r : gmap string easingFn) (m : gmap string Qc) =>
    forall key, r !! key = match m !! key with
                           | Some _ => if String.eqb key "__proto__" then None else Some e
                           | None => None
                           end)).
  - intros key. by rewrite !lookup_empty.
  - intros i x m r Hi IH key. rewrite lookup_assign.
    destruct (decide (i = key)) as [->|Hne].
    + rewrite lookup_insert_eq, IH, Hi. reflexivity.
    + rewrite lookup_insert_ne by done. apply IH.
Qed.

(** What the object case assigns to a property: the member of
    [Object.prototype] that the fresh object inherits under that name, if
    there is one, else the truthy entry of the easing object, else the
    default. *)
Lemma composeEasingObject_object (fromTweenParams : gmap string Qc)
    (o : gmap string easingFn) key :
  map_fold (fun prop _ (composedEasing : gmap string easingFn) =>
              assign prop
                (or_else (read_property composedEasing prop)
                   (or_else (read_property o prop) (EasingName DEFAULT_EASING)))
                composedEasing)
           ∅ fromTweenParams !! key
  = match fromTweenParams !! key with
    | Some _ =>
        if String.eqb key "__proto__" then None
        else if inherited key then Some (EasingInherited key)
        else Some (or_else (o !! key) (EasingName DEFAULT_EASING))
    | None => None
    end.
Proof.
  revert key.
  apply (map_fold_weak_ind (fun (r : gmap string easingFn) (m : gmap string Qc) =>
    forall key, r !! key = match m !! key with
                           | Some _ =>
                               if String.eqb key "__proto__" then None
                               else if inherited key then Some (EasingInherited key)
                               else Some (or_else (o !! key) (EasingName DEFAULT_EASING))
                           | None => None
                           end)).
  - intros key. by rewrite !lookup_empty.
  - intros i x m r Hi IH key. rewrite lookup_assign.
    destruct (decide (i = key)) as [->|Hne].
    + rewrite lookup_insert_eq. unfold read_property. rewrite IH, Hi.
      destruct (String.eqb key "__proto__"); [reflexivity|].
      destruct (inherited key); [reflexivity|].
      by destruct (o !! key).
    + rewrite lookup_insert_ne by done. apply IH.
Qed.

Lemma or_else_truthy (v : option easingFn) (d : easingFn) :
  Some (or_else v d) = if truthy v then v else Some d.
Proof.
  unfold or_else. destruct v as [e|]; [|reflexivity].
  destruct (truthy (Some e)); reflexivity.
Qed.

(** The own properties of the composed easing object. *)
Lemma composeEasingObject_lookup (fromTweenParams : gmap string Qc)
    (easing : option easingArg) (key : string) :
  composeEasingObject fromTweenParams easing !! key
  = match fromTweenParams !! key with
    | Some _ =>
        if String.eqb key "__proto__" then None
        else
          match easing with
          | None => Some (EasingName "linear")
          | Some (EasingOne e) => Some e
          | Some (EasingObject o) =>
              if inherited key then Some (EasingInherited key)
              else if truthy (o !! key) then o !! key else Some (EasingName "linear")
          end
    | None => None
    end.
Proof.
  unfold composeEasingObject.
  destruct easing as [[e|o]|]; cbv beta iota zeta delta [default from_option id].
  - apply composeEasingObject_one.
  - rewrite composeEasingObject_object.
    destruct (fromTweenParams !! key); [|reflexivity].
    destruct (String.eqb key "__proto__"); [reflexivity|].
    destruct (inherited key); [reflexivity|apply or_else_truthy].
  - apply composeEasingObject_one.
Qed.

(** C8, as the code has it.  The composed easing has no other keys than
    those of the state object, and has each of them but [__proto__].  One
    string or function is given to every key.  An object gives a key that is
    not the name of a member of [Object.prototype] its own entry when that
    entry is truthy (a function or a non-empty string), and "linear" when
    the entry is absent or falsy; a key that names a member of
    [Object.prototype] gets that member, whatever the object holds. *)
Theorem composeEasingObject_spec (fromTweenParams : gmap string Qc)
    (easing : option easingArg) (key : string) :
  (fromTweenParams !! key = None ->
   composeEasingObject fromTweenParams easing !! key = None)
  /\ (is_Some (fromTweenParams !! key) -> key <> "__proto__" ->
      is_Some (composeEasingObject fromTweenParams easing !! key)
      /\ match easing with
         | None =>
             composeEasingObject fromTweenParams easing !! key = Some (EasingName "linear")
         | Some (EasingOne e) =>
             composeEasingObject fromTweenParams easing !! key = Some e
         | Some (EasingObject o) =>
             (inherited key = false ->
              composeEasingObject fromTweenParams easing !! key
              = if truthy (o !! key) then o !! key else Some (EasingName "linear"))
             /\ (inherited key = true ->
                 composeEasingObject fromTweenParams easing !! key
                 = Some (EasingInherited key))
         end).
Proof.
  rewrite composeEasingObject_lookup. split.
  - by intros ->.
  - intros [v ->] Hproto.
    replace (String.eqb key "__proto__") with false
      by (symmetry; by apply String.eqb_neq).
    destruct easing as [[e|o]|].
    + split; [by eexists|reflexivity].
    + split.
      * destruct (inherited key); [by eexists|].
        destruct (truthy (o !! key)) eqn:E; [|by eexists].
        destruct (o !! key); [by eexists|discriminate].
      * split; intros ->; reflexivity.
    + split; [by eexists|reflexivity].
Qed.

Lemma composeEasingObject_spec_witness :
  composeEasingObject {[ "x" := 0; "y" := 0 ]}
    (Some (EasingObject {[ "x" := EasingName "easeInQuad" ]})) !! "x"
  = Some (EasingName "easeInQuad")
  /\ composeEasingObject {[ "x" := 0; "y" := 0 ]}
    (Some (EasingObject {[ "x" := EasingName "easeInQuad" ]})) !! "y"
  = Some (EasingName "linear").
Proof.
  split.
  - destruct (composeEasingObject_spec {[ "x" := 0; "y" := 0 ]}
                (Some (EasingObject {[ "x" := EasingName "easeInQuad" ]})) "x") as [_ H].
    destruct H as (_ & H & _); [by eexists|discriminate|].
    rewrite H; reflexivity.
  - destruct (composeEasingObject_spec {[ "x" := 0; "y" := 0 ]}
                (Some (EasingObject {[ "x" := EasingName "easeInQuad" ]})) "y") as [_ H].
    destruct H as (_ & H & _); [by eexists|discriminate|].
    rewrite H; reflexivity.
Defined.

(** C8 as the specification words it fails.  An entry that is present but is
    the empty string is replaced by "linear".  And for the state key
    [constructor] the present entry ['easeInQuad'] is passed over: the
    composed object gets the function [Object], which the fresh object
    inherits under that name. *)
Lemma composeEasingObject_present_entry_counterexample :
  (easing_empty_name !! "x" = Some (EasingName "")
   /\ composeEasingObject state_x (Some (EasingObject easing_empty_name)) !! "x"
      = Some (EasingName "linear")
   /\ composeEasingObject state_x (Some (EasingObject easing_empty_name)) !! "x"
      <> easing_empty_name !! "x")
  /\ (easing_quad_constructor !! "constructor" = Some (EasingName "easeInQuad")
      /\ composeEasingObject state_constructor (Some (EasingObject easing_quad_constructor))
           !! "constructor"
         = Some (EasingInherited "constructor")
      /\ composeEasingObject state_constructor (Some (EasingObject easing_quad_constructor))
           !! "constructor"
         <> easing_quad_constructor !! "constructor").
Proof.
  split.
  - split; [reflexivity|]. split; [reflexivity|]. vm_compute. discriminate.
  - split; [reflexivity|]. split; [reflexivity|]. vm_compute. discriminate.
Qed.

(** ** The run queue as an array *)

Lemma indexOf_absent (id : nat) (q : list nat) : id ∉ q -> indexOf id q = (-1)%Z.
Proof.
  induction q as [|x q IH]; intros Hq; [reflexivity|].
  apply not_elem_of_cons in Hq as [Hne Hq]. cbn.
  destruct (Nat.eqb_spec x id) as [->|_]; [done|].
  rewrite (IH Hq). reflexivity.
Qed.

Lemma indexOf_present (id : nat) (q : list nat) :
  id ∈ q ->
  exists j, indexOf id q = Z.of_nat j /\ q !! j = Some id
            /\ forall k, (k < j)%nat -> q !! k <> Some id.
Proof.
  induction q as [|x q IH]; intros Hq; [by apply elem_of_nil in Hq|].
  cbn. destruct (Nat.eqb_spec x id) as [->|Hne].
  - exists O. repeat split. intros k Hk. lia.
  - apply elem_of_cons in Hq as [->|Hq]; [done|].
    destruct (IH Hq) as (j & Hj & Hl & Hfirst). exists (S j).
    rewrite Hj. destruct (Z.ltb_spec (Z.of_nat j) 0); [lia|].
    repeat split; [lia|exact Hl|].
    intros [|k] Hk; cbn; [congruence|]. apply Hfirst. lia.
Qed.

Lemma delete_last_removelast (q : list nat) :
  delete (length q - 1)%nat q = removelast q.
Proof.
  induction q as [|x q IH]; [reflexivity|].
  destruct q as [|y q]; [reflexivity|].
  cbn [length removelast] in *.
  replace (S (S (length q)) - 1)%nat with (S (length q)) by lia.
  replace (S (length q) - 1)%nat with (length q) in IH by lia.
  cbn [delete list_delete]. f_equal. exact IH.
Qed.

Lemma delete_past_end (j : nat) (q : list nat) :
  (length q <= j)%nat -> delete j q = q.
Proof.
  intros H. rewrite delete_take_drop.
  rewrite take_ge by lia. rewrite drop_ge by lia. apply app_nil_r.
Qed.

Lemma splice1_at (j : nat) (q : list nat) : splice1 (Z.of_nat j) q = delete j q.
Proof.
  unfold splice1. destruct (Z.ltb_spec (Z.of_nat j) 0); [lia|].
  destruct (Nat.le_gt_cases (length q) j) as [Hge|Hlt].
  - rewrite Z.min_r by lia. rewrite Nat2Z.id.
    rewrite !delete_past_end by lia. reflexivity.
  - rewrite Z.min_l by lia. rewrite Nat2Z.id. reflexivity.
Qed.

Lemma splice1_minus_one (q : list nat) : splice1 (-1) q = removelast q.
Proof.
  unfold splice1. cbn [Z.ltb Z.compare].
  rewrite <- delete_last_removelast. f_equal.
  destruct q as [|x q]; [reflexivity|]. cbn [length]. lia.
Qed.

Lemma removelast_last (q : list nat) (x : nat) :
  last q = Some x -> q = removelast q ++ [x].
Proof.
  induction q as [|y q IH]; [discriminate|].
  destruct q as [|z q].
  - cbn. intros [= ->]. reflexivity.
  - intros H. cbn [removelast]. cbn [app]. f_equal. apply IH. exact H.
Qed.

(** ** Frame lemmas of the store *)

Lemma instances_modify_same id f w : instances (modify id f w) id = f (instances w id).
Proof. cbn. by rewrite Nat.eqb_refl. Qed.

Lemma instances_modify_other id j f w :
  j <> id -> instances (modify id f w) j = instances w j.
Proof. intros H. cbn. by destruct (Nat.eqb_spec j id). Qed.

Lemma isPlaying_modify_other id j f w :
  j <> id -> isPlaying j (modify id f w) = isPlaying j w.
Proof. intros H. unfold isPlaying. by rewrite instances_modify_other. Qed.

Section Methods.

Variable formulas : gmap string (Qc -> Qc).

(** *** [stop] *)

Lemma stop_true_inv id w w' :
  stop formulas id true w = Ok w' ->
  let t := instances w id in
  _configured t = true
  /\ exists state,
      tweenProps formulas 1 (_currentState t) (_originalState t) (_targetState t) 1 0
        (_easing t) = Ok state
      /\ instances w' id
         = set_currentState state (set_isPaused false (set_isTweening false t))
      /\ (forall j, j <> id -> instances w' j = instances w j)
      /\ tweenQueue w' = splice1 (indexOf id (tweenQueue w)) (tweenQueue w)
      /\ trace w' = trace w ++ [FilterApplied id "beforeTween";
                                FilterApplied id "afterTween";
                                FilterApplied id "afterTweenEnd";
                                Resolved (_promise t) state (_attachment t)]
      /\ promises w' = promises w.
Proof.
  intros H t. unfold stop in H. fold t in H.
  destruct (_configured t) eqn:Hc; [|discriminate]. split; [reflexivity|].
  cbn [negb] in H.
  destruct (tweenProps formulas 1 (_currentState t) (_originalState t) (_targetState t) 1 0
              (_easing t)) as [state|e] eqn:Hs; [|discriminate].
  cbn in H. injection H as <-. exists state. split; [reflexivity|].
  repeat split.
  - cbn. rewrite Nat.eqb_refl. reflexivity.
  - intros j Hj. cbn. by destruct (Nat.eqb_spec j id).
  - cbn. rewrite <- !app_assoc. reflexivity.
Qed.

Lemma stop_true_ok id w state :
  _configured (instances w id) = true ->
  tweenProps formulas 1 (_currentState (instances w id)) (_originalState (instances w id))
    (_targetState (instances w id)) 1 0 (_easing (instances w id)) = Ok state ->
  exists w', stop formulas id true w = Ok w'.
Proof.
  intros Hc Hs. unfold stop. rewrite Hc, Hs. cbn. eauto.
Qed.

Lemma stop_false_inv id w w' :
  stop formulas id false w = Ok w' ->
  let t := instances w id in
  _configured t = true
  /\ instances w' id = set_isPaused false (set_isTweening false t)
  /\ (forall j, j <> id -> instances w' j = instances w j)
  /\ tweenQueue w' = splice1 (indexOf id (tweenQueue w)) (tweenQueue w)
  /\ trace w' = trace w ++ [Rejected (_promise t) (_currentState t) (_attachment t)]
  /\ promises w' = promises w.
Proof.
  intros H t. unfold stop in H. fold t in H.
  destruct (_configured t) eqn:Hc; [|discriminate]. split; [reflexivity|].
  cbn in H. injection H as <-. repeat split.
  - cbn. rewrite Nat.eqb_refl. reflexivity.
  - intros j Hj. cbn. by destruct (Nat.eqb_spec j id).
Qed.

Lemma stop_false_ok id w :
  _configured (instances w id) = true -> exists w', stop formulas id false w = Ok w'.
Proof.
  intros Hc. unfold stop. rewrite Hc. cbn. eauto.
Qed.

Lemma stop_queue id gotoEnd w w' :
  stop formulas id gotoEnd w = Ok w' ->
  tweenQueue w' = splice1 (indexOf id (tweenQueue w)) (tweenQueue w).
Proof.
  destruct gotoEnd; intros H.
  - apply stop_true_inv in H. cbv zeta in H. destruct H as (_ & s & _ & _ & _ & H & _).
    exact H.
  - apply stop_false_inv in H. cbv zeta in H. destruct H as (_ & _ & _ & H & _).
    exact H.
Qed.

(** C10: for an instance that is not in the run queue the removal step of
    [stop] removes the last element of the queue, and so does [stop]: the
    element removed is another instance, the one at the far end from where
    [resume] enqueues. *)
Theorem stop_absent_removes_last (id : nat) (w : World) :
  id ∉ tweenQueue w ->
  _configured (instances w id) = true ->
  splice1 (indexOf id (tweenQueue w)) (tweenQueue w) = removelast (tweenQueue w)
  /\ (exists w', stop formulas id false w = Ok w')
  /\ forall gotoEnd w',
      stop formulas id gotoEnd w = Ok w' ->
      tweenQueue w' = removelast (tweenQueue w)
      /\ forall x, last (tweenQueue w) = Some x ->
                   x <> id /\ tweenQueue w = tweenQueue w' ++ [x].
Proof.
  intros Habsent Hc.
  assert (Hstep : splice1 (indexOf id (tweenQueue w)) (tweenQueue w)
                  = removelast (tweenQueue w)).
  { rewrite (indexOf_absent _ _ Habsent). apply splice1_minus_one. }
  split; [exact Hstep|]. split; [by apply stop_false_ok|].
  intros gotoEnd w' Hstop.
  apply stop_queue in Hstop. rewrite Hstep in Hstop. split; [exact Hstop|].
  intros x Hx. split.
  - intros ->. apply Habsent. apply last_Some in Hx as [l' ->].
    set_solver.
  - rewrite Hstop. by apply removelast_last.
Qed.

End Methods.

Section Ticks.

Variable formulas : gmap string (Qc -> Qc).

(** *** Positions of the three passes *)

Lemma normalizedPosition_end : normalizedPosition 1 1 0 = Ok 1.
Proof.
  unfold normalizedPosition.
  replace (Qcltb 1 0) with false by reflexivity.
  replace (Qceqb 1 0) with false by reflexivity.
  apply (f_equal Ok). apply Qc_is_canon. reflexivity.
Qed.

Lemma normalizedPosition_start : normalizedPosition 1 1 1 = Ok 0.
Proof.
  unfold normalizedPosition.
  replace (Qcltb 1 1) with false by reflexivity.
  replace (Qceqb 1 0) with false by reflexivity.
  apply (f_equal Ok). apply Qc_is_canon. reflexivity.
Qed.

Lemma normalizedPosition_progress (now duration start : Qc) :
  start <= now -> now < start + duration ->
  normalizedPosition now duration start = Ok ((now - start) / duration).
Proof.
  intros Hle Hlt. unfold normalizedPosition.
  replace (Qcltb now start) with false by (symmetry; by apply Qcltb_ge).
  assert (Hpos : 0 < duration).
  { pose proof (Qcle_lt_trans _ _ _ Hle Hlt) as H.
    apply Qclt_minus_iff in H.
    replace (start + duration + - start) with duration in H by ring. exact H. }
  destruct (Qceqb duration 0) eqn:E; [|reflexivity].
  apply Qceqb_eq in E. rewrite E in Hpos. by apply Qclt_not_eq in Hpos.
Qed.

(** *** [processTween] *)

(** The tick of an instance whose end time has been reached. *)
Lemma processTween_ended id now w ts :
  let t := instances w id in
  _configured t = true -> _timestamp t = Some ts ->
  ts + _delay t + _duration t <= now ->
  processTween formulas id now w
  = stop formulas id true
      (emit (StepCalled id (_targetState t) (_attachment t)
               (_duration t - (ts + _delay t + _duration t - (ts + _delay t + _duration t)))) w).
Proof.
  intros t Hc Hts Hend. unfold processTween. fold t. rewrite Hc, Hts. cbn.
  rewrite (Math_min_r _ _ Hend).
  replace (Qcleb _ _) with true by (symmetry; apply Qcleb_le, Qcle_refl).
  reflexivity.
Qed.

(** The tick of an instance whose end time has not been reached. *)
Lemma processTween_running id now w ts :
  let t := instances w id in
  _configured t = true -> _timestamp t = Some ts ->
  now < ts + _delay t + _duration t ->
  processTween formulas id now w
  = (state ← (if Qcltb now (ts + _delay t)
              then tweenProps formulas 1 (_currentState t) (_originalState t)
                     (_targetState t) 1 1 (_easing t)
              else tweenProps formulas now (_currentState t) (_originalState t)
                     (_targetState t) (_duration t) (ts + _delay t) (_easing t));
     Ok (emit (StepCalled id state (_attachment t)
                 (_duration t - (ts + _delay t + _duration t - now)))
           (_applyFilter id "afterTween"
              (modify id (set_currentState state)
                 (_applyFilter id "beforeTween" w))))).
Proof.
  intros t Hc Hts Hrun. unfold processTween. fold t. rewrite Hc, Hts. cbn.
  rewrite (Math_min_l _ _ Hrun).
  replace (Qcleb _ _) with false by (symmetry; by apply Qcleb_gt).
  destruct (Qcltb now (ts + _delay t)); reflexivity.
Qed.

End Ticks.

(** ** Completion *)

Section Completion.

Variable formulas : gmap string (Qc -> Qc).

Lemma resolves_tweened t position key :
  resolves formulas t -> is_Some (_currentState t !! key) ->
  exists f a b,
    easingOf formulas (_easing t !! key) = Some f
    /\ _originalState t !! key = Some a
    /\ _targetState t !! key = Some b
    /\ tweened formulas (_originalState t) (_targetState t) (_easing t) position key
       = Some (tweenProp a b f position).
Proof.
  intros [_ H] Hk. destruct (H key Hk) as ([a Ha] & [b Hb] & [f Hf]).
  exists f, a, b. repeat split; try assumption.
  unfold tweened. by rewrite Hf, Ha, Hb.
Qed.

(** A pass of a well-formed instance returns, whatever the position. *)
Lemma resolves_pass t forPosition duration timestamp position :
  resolves formulas t ->
  normalizedPosition forPosition duration timestamp = Ok position ->
  exists state,
    tweenProps formulas forPosition (_currentState t) (_originalState t) (_targetState t)
      duration timestamp (_easing t) = Ok state
    /\ forall key,
         state !! key = match _currentState t !! key with
                        | Some _ => tweened formulas (_originalState t) (_targetState t)
                                      (_easing t) position key
                        | None => None
                        end.
Proof.
  intros Hr Hp. apply tweenProps_ok; [exact Hp|].
  intros key Hk. destruct (resolves_tweened t position key Hr Hk) as (f & a & b & _ & _ & _ & ->).
  by eexists.
Qed.

Lemma settlement_app (p : nat) (calls calls' : list event) :
  settlement p calls = None ->
  settlement p (calls ++ calls') = settlement p calls'.
Proof.
  unfold settlement. induction calls as [|e calls IH]; [done|].
  cbn. destruct (settles p e); [discriminate|exact IH].
Qed.

Lemma stop_true_completes id w :
  resolves formulas (instances w id) ->
  exists w', stop formulas id true w = Ok w' /\ completed formulas id w w'.
Proof.
  intros Hr.
  destruct (resolves_pass _ 1 1 0 1 Hr normalizedPosition_end) as (state & Hs & Hl).
  destruct (stop_true_ok formulas id w state (proj1 Hr) Hs) as [w' Hw'].
  exists w'. split; [exact Hw'|].
  apply stop_true_inv in Hw'. cbv zeta in Hw'.
  destruct Hw' as (_ & state' & Hs' & Hi & _ & _ & Htr & _).
  rewrite Hs in Hs'. injection Hs' as <-.
  unfold completed. cbv zeta. rewrite Hi. cbn.
  split; [|split; [|split; [reflexivity|split; [reflexivity|split; [|split]]]]].
  - intros key f a b [v Hv] Hf Ha Hb.
    rewrite Hl, Hv. unfold tweened. by rewrite Hf, Ha, Hb.
  - intros key. rewrite Hl. split.
    + destruct (_currentState (instances w id) !! key); [by eexists|].
      intros [? ?]. discriminate.
    + intros [v Hv]. rewrite Hv.
      destruct (resolves_tweened _ 1 key Hr) as (f & a & b & _ & _ & _ & ->); by eexists.
  - unfold isPlaying. rewrite Hi. reflexivity.
  - exists [FilterApplied id "beforeTween"; FilterApplied id "afterTween";
            FilterApplied id "afterTweenEnd"].
    rewrite Htr. reflexivity.
  - intros p Hp Hpending. rewrite Htr, (settlement_app _ _ _ Hpending), Hp.
    unfold settlement. cbn. by rewrite Nat.eqb_refl.
Qed.

End Completion.

Section CompletionClaim.

Variable formulas : gmap string (Qc -> Qc).

Lemma completion_completes (id : nat) (w : World) :
  resolves formulas (instances w id) ->
  (exists w', stop formulas id true w = Ok w' /\ completed formulas id w w')
  /\ (forall now ts,
        _timestamp (instances w id) = Some ts ->
        ts + _delay (instances w id) + _duration (instances w id) <= now ->
        exists w', processTween formulas id now w = Ok w' /\ completed formulas id w w').
Proof.
  intros Hr. split; [by apply stop_true_completes|].
  intros now ts Hts Hend.
  rewrite (processTween_ended formulas id now w ts (proj1 Hr) Hts Hend).
  match goal with |- context [stop formulas id true ?w1] => set (w1' := w1) end.
  destruct (stop_true_completes formulas id w1' Hr) as (w' & Hw' & Hdone).
  exists w'. split; [exact Hw'|].
  unfold completed in *. cbv zeta in *.
  destruct Hdone as (H1 & H2 & H3 & H4 & H5 & (between & H6) & H7).
  change (instances w1' id) with (instances w id) in *.
  refine (conj H1 (conj H2 (conj H3 (conj H4 (conj H5 (conj _ _)))))).
  - eexists (_ :: between). rewrite H6. unfold w1'. cbn [trace emit].
    rewrite <- app_assoc. reflexivity.
  - intros p Hp Hpending. apply (H7 p Hp).
    unfold w1'. cbn [trace emit]. by rewrite (settlement_app _ _ _ Hpending).
Qed.

End CompletionClaim.

(** C1, as the code has it.  A configured tween that is driven to
    completion, by [stop(true)] or by a tick at or after
    [timestamp + delay + duration], has at every tracked key the value that
    [tweenProp] computes at position 1,
    [originalState[k] + (targetState[k] - originalState[k]) * f(1)]; it is no
    longer playing, and the last call made is that of [resolve] with the
    final state, which settles the promise unless it was settled before.  On
    the doubles of the source the final pass returns and leaves, for a curve
    that is [1] at [1], [originalState[k] + (targetState[k] -
    originalState[k])]: the target value as far as the rounding of the
    subtraction and of the addition allows. *)
Theorem completion_runs_final_pass (formulas : gmap string (Qc -> Qc)) (id : nat) (w : World)
    (formulas64 : gmap string (float -> float))
    (currentState originalState targetState : gmap string float)
    (easing : gmap string Binary64.easingFn) :
  (resolves formulas (instances w id) ->
   (exists w', stop formulas id true w = Ok w' /\ completed formulas id w w')
   /\ (forall now ts,
         _timestamp (instances w id) = Some ts ->
         ts + _delay (instances w id) + _duration (instances w id) <= now ->
         exists w', processTween formulas id now w = Ok w' /\ completed formulas id w w'))
  /\ ((forall key, is_Some (currentState !! key) ->
         is_Some (Binary64.easingOf formulas64 (easing !! key))) ->
      exists state,
        Binary64.tweenProps formulas64 1 currentState originalState targetState 1 0 easing
        = Some state
        /\ (forall key, is_Some (state !! key) <-> is_Some (currentState !! key))
        /\ forall key f a b,
             is_Some (currentState !! key) ->
             Binary64.easingOf formulas64 (easing !! key) = Some f ->
             originalState !! key = Some a ->
             targetState !! key = Some b ->
             state !! key = Some (Binary64.tweenProp a b f 1)
             /\ ((f 1 =? 1)%float = true -> state !! key = Some (a + (b - a))%float)).
Proof.
  split.
  - apply completion_completes.
  - apply final_pass_binary64.
Qed.

Section DelayWindow.

Variable formulas : gmap string (Qc -> Qc).

(** C2, as the code has it: in a tick before the end time the stored
    timestamp is left as it is.  Before [timestamp + delay] the pass runs at
    position 0, and a key whose curve has [f 0 = 0] gets its original value;
    from [timestamp + delay] on the pass runs at position
    [(now - (timestamp + delay)) / duration]. *)
Theorem processTween_before_end (id : nat) (w : World) (now ts : Qc) :
  resolves formulas (instances w id) ->
  _timestamp (instances w id) = Some ts ->
  now < ts + _delay (instances w id) + _duration (instances w id) ->
  exists w',
    processTween formulas id now w = Ok w'
    /\ _timestamp (instances w' id) = Some ts
    /\ _originalState (instances w' id) = _originalState (instances w id)
    /\ forall key f a b,
         is_Some (_currentState (instances w id) !! key) ->
         easingOf formulas (_easing (instances w id) !! key) = Some f ->
         _originalState (instances w id) !! key = Some a ->
         _targetState (instances w id) !! key = Some b ->
         (now < ts + _delay (instances w id) ->
            _currentState (instances w' id) !! key = Some (tweenProp a b f 0)
            /\ (f 0 = 0 ->
                _currentState (instances w' id) !! key
                = _originalState (instances w' id) !! key))
         /\ (ts + _delay (instances w id) <= now ->
             _currentState (instances w' id) !! key
             = Some (tweenProp a b f
                       ((now - (ts + _delay (instances w id)))
                        / _duration (instances w id)))).
Proof.
  intros Hr Hts Hrun.
  rewrite (processTween_running formulas id now w ts (proj1 Hr) Hts Hrun).
  set (t := instances w id) in *.
  destruct (Qcltb now (ts + _delay t)) eqn:Hdelay.
  - apply Qcltb_lt in Hdelay.
    destruct (resolves_pass formulas t 1 1 1 0 Hr normalizedPosition_start) as (state & -> & Hl).
    eexists. split; [reflexivity|]. cbn. rewrite Nat.eqb_refl. cbn. fold t.
    split; [exact Hts|]. split; [reflexivity|].
    intros key f a b [v Hk] Hf Ha Hb.
    assert (Hkey : state !! key = Some (tweenProp a b f 0)).
    { rewrite Hl, Hk. unfold tweened. by rewrite Hf, Ha, Hb. }
    split.
    + intros _. split; [exact Hkey|].
      intros Hf0. rewrite Hkey, Ha. f_equal. by apply tweenProp_at_0.
    + intros Hle. exfalso. exact (Qclt_not_le _ _ Hdelay Hle).
  - apply Qcltb_ge in Hdelay.
    assert (Hlt : now < ts + _delay t + _duration t) by exact Hrun.
    destruct (resolves_pass formulas t now (_duration t) (ts + _delay t) _ Hr
                (normalizedPosition_progress now (_duration t) (ts + _delay t) Hdelay Hlt))
      as (state & -> & Hl).
    eexists. split; [reflexivity|]. cbn. rewrite Nat.eqb_refl. cbn. fold t.
    split; [exact Hts|]. split; [reflexivity|].
    intros key f a b [v Hk] Hf Ha Hb. split.
    + intros Hlt'. exfalso. exact (Qclt_not_le _ _ Hlt' Hdelay).
    + intros _. rewrite Hl, Hk. unfold tweened. by rewrite Hf, Ha, Hb.
Qed.

End DelayWindow.

(** ** Pause and resume *)

Section PauseResume.

Variable formulas : gmap string (Qc -> Qc).







End PauseResume.

(** ** The scheduler loop *)

Section Scheduler.

Variable formulas : gmap string (Qc -> Qc).

(** A tick touches its own instance only, and either leaves the queue alone
    or stops the instance and removes its first entry. *)
Lemma processTween_frame id now w w' :
  processTween formulas id now w = Ok w' ->
  (forall j, j <> id -> instances w' j = instances w j)
  /\ (tweenQueue w' = tweenQueue w
      \/ (tweenQueue w' = splice1 (indexOf id (tweenQueue w)) (tweenQueue w)
          /\ isPlaying id w' = false)).
Proof.
  unfold processTween.
  destruct (_configured (instances w id)); cbn [negb]; [|discriminate].
  destruct (_timestamp (instances w id)) as [ts|]; cbn; [|discriminate].
  destruct (Qcleb _ _).
  - intros H. apply stop_true_inv in H. cbv zeta in H.
    destruct H as (_ & state & _ & Hi & Hother & Hq & _).
    split; [exact Hother|]. right. split; [exact Hq|].
    unfold isPlaying. rewrite Hi. reflexivity.
  - destruct (Qcltb _ _).
    + destruct (tweenProps formulas 1 _ _ _ 1 1 _) as [state|e]; [|discriminate].
      cbn. intros [= <-]. split; [|by left].
      intros j Hj. cbn. by destruct (Nat.eqb_spec j id).
    + destruct (tweenProps formulas _ _ _ _ _ _ _) as [state|e]; [|discriminate].
      cbn. intros [= <-]. split; [|by left].
      intros j Hj. cbn. by destruct (Nat.eqb_spec j id).
Qed.

Lemma isPlaying_frame id j now w w' :
  processTween formulas id now w = Ok w' -> j <> id -> isPlaying j w' = isPlaying j w.
Proof.
  intros H Hj. apply processTween_frame in H as [H _].
  unfold isPlaying. by rewrite (H j Hj).
Qed.

(** Entries of an instance that is not playing do not matter to the walk. *)
Lemma tick_each_skip now id entries :
  forall w, isPlaying id w = false ->
    tick_each formulas now entries w = tick_each formulas now (filter (fun j => j <> id) entries) w.
Proof.
  induction entries as [|j rest IH]; intros w Hid; [reflexivity|].
  destruct (decide (j = id)) as [->|Hne].
  - rewrite filter_cons_False by (intros H; by apply H).
    cbn [tick_each]. rewrite Hid. cbn [negb]. by apply IH.
  - rewrite filter_cons_True by done. cbn [tick_each].
    destruct (negb (isPlaying j w)); [by apply IH|].
    destruct (processTween formulas j now w) as [w'|e] eqn:Hj; [|reflexivity].
    cbn. apply IH. rewrite (isPlaying_frame j id now w w' Hj); [exact Hid|].
    intros ->. by apply Hne.
Qed.

Lemma filter_delete_same (id : nat) (l : list nat) (j : nat) :
  l !! j = Some id ->
  filter (fun x => x <> id) (delete j l) = filter (fun x => x <> id) l.
Proof.
  revert j. induction l as [|x l IH]; intros [|j] H; try discriminate.
  - cbn in H. injection H as ->. cbn [delete list_delete].
    rewrite filter_cons_False by (intros H; by apply H). reflexivity.
  - cbn in H. cbn [delete list_delete].
    destruct (decide (x = id)) as [->|Hne].
    + rewrite !filter_cons_False by (intros H'; by apply H'). by apply IH.
    + rewrite !filter_cons_True by done. f_equal. by apply IH.
Qed.

Lemma take_delete_le (l : list nat) (j i : nat) :
  (j <= i)%nat -> take i (delete j l) = delete j (take (S i) l).
Proof.
  revert j i. induction l as [|x l IH]; intros j i Hji.
  - destruct j; cbn; by rewrite ?take_nil.
  - destruct j as [|j].
    + cbn [delete list_delete take]. reflexivity.
    + destruct i as [|i]; [lia|].
      cbn [delete list_delete take]. f_equal. apply IH. lia.
Qed.

(** Removing the first entry of the instance under the cursor leaves the
    entries still to visit as they were, entries of that instance apart. *)
Lemma unvisited_after_removal (id : nat) (q : list nat) (i : nat) :
  q !! i = Some id ->
  filter (fun x => x <> id) (take i (splice1 (indexOf id q) q))
  = filter (fun x => x <> id) (take i q).
Proof.
  intros Hi.
  destruct (indexOf_present id q) as (j & Hj & Hl & Hfirst);
    [by apply list_elem_of_lookup; eexists|].
  rewrite Hj, splice1_at.
  assert (Hji : (j <= i)%nat).
  { destruct (Nat.le_gt_cases j i) as [H|H]; [exact H|]. by destruct (Hfirst i H). }
  rewrite take_delete_le by exact Hji.
  rewrite filter_delete_same by (rewrite lookup_take_lt by lia; exact Hl).
  rewrite (take_S_r q i id Hi), filter_app.
  rewrite filter_cons_False by (intros H; by apply H).
  rewrite filter_nil. apply app_nil_r.
Qed.

Lemma processQueue_loop_walk now i :
  forall w, (i <= length (tweenQueue w))%nat ->
    processQueue_loop formulas now i w
    = tick_each formulas now (reverse (take i (tweenQueue w))) w.
Proof.
  induction i as [|i IH]; intros w Hlen; [reflexivity|].
  cbn [processQueue_loop].
  destruct (tweenQueue w !! i) as [id|] eqn:Hi;
    [|apply lookup_ge_None in Hi; lia].
  rewrite (take_S_r _ _ _ Hi), reverse_app. cbn [reverse rev_append app tick_each].
  change (rev_append [id] []) with [id]. cbn [app tick_each].
  destruct (negb (isPlaying id w)); [apply IH; lia|].
  destruct (processTween formulas id now w) as [w'|e] eqn:Hw'; [|reflexivity].
  cbn. apply processTween_frame in Hw' as [_ [Hq|[Hq Hstopped]]].
  - rewrite IH by (rewrite Hq; lia). by rewrite Hq.
  - assert (Hlen' : (i <= length (tweenQueue w'))%nat).
    { rewrite Hq. destruct (indexOf_present id (tweenQueue w)) as (j & -> & Hl & _);
        [by apply list_elem_of_lookup; eexists|].
      rewrite splice1_at, length_delete by (by eexists).
      apply lookup_lt_Some in Hi. lia. }
    rewrite (IH w' Hlen').
    rewrite (tick_each_skip now id _ w' Hstopped).
    rewrite (tick_each_skip now id (reverse (take i (tweenQueue w))) w' Hstopped).
    rewrite !filter_reverse, Hq.
    by rewrite (unvisited_after_removal id (tweenQueue w) i Hi).
Qed.

(** C9: one invocation of the scheduler loop, which indexes the live queue
    from its last entry down, is the walk over the snapshot of the queue
    taken at entry, back to front: every entry is visited once, skipped when
    it is not playing at that moment and ticked with the one [now] of the
    invocation otherwise; an instance that stops itself in its tick makes
    the loop neither miss nor repeat an entry. *)
Theorem processQueue_walks_snapshot (now : Qc) (w : World) :
  processQueue formulas now w = tick_each formulas now (reverse (tweenQueue w)) w.
Proof.
  unfold processQueue. rewrite processQueue_loop_walk by lia.
  by rewrite firstn_all.
Qed.

End Scheduler.

(** ** Seeking *)

Section Seek.

Variable formulas : gmap string (Qc -> Qc).

(** A tick of a well-formed instance with a timestamp returns, keeps the
    timestamp, and reaches both hook points and the step callback. *)
Lemma processTween_total id now w ts :
  resolves formulas (instances w id) ->
  _timestamp (instances w id) = Some ts ->
  exists w' called,
    processTween formulas id now w = Ok w'
    /\ _timestamp (instances w' id) = Some ts
    /\ trace w' = trace w ++ called
    /\ FilterApplied id "beforeTween" ∈ called
    /\ FilterApplied id "afterTween" ∈ called
    /\ exists state offset,
         StepCalled id state (_attachment (instances w id)) offset ∈ called.
Proof.
  intros Hr Hts. set (t := instances w id) in *.
  destruct (Qclt_le_dec now (ts + _delay t + _duration t)) as [Hrun|Hend].
  - rewrite (processTween_running formulas id now w ts (proj1 Hr) Hts Hrun). fold t.
    assert (Hpass : exists state,
      (if Qcltb now (ts + _delay t)
       then tweenProps formulas 1 (_currentState t) (_originalState t) (_targetState t)
              1 1 (_easing t)
       else tweenProps formulas now (_currentState t) (_originalState t) (_targetState t)
              (_duration t) (ts + _delay t) (_easing t)) = Ok state).
    { destruct (Qcltb now (ts + _delay t)) eqn:Hdelay.
      - destruct (resolves_pass formulas t 1 1 1 0 Hr normalizedPosition_start)
          as (state & Hs & _). by exists state.
      - apply Qcltb_ge in Hdelay.
        destruct (resolves_pass formulas t now (_duration t) (ts + _delay t) _ Hr
                    (normalizedPosition_progress _ _ _ Hdelay Hrun)) as (state & Hs & _).
        by exists state. }
    destruct Hpass as [state ->]. cbn.
    eexists. exists [FilterApplied id "beforeTween"; FilterApplied id "afterTween";
                     StepCalled id state (_attachment t)
                       (_duration t - (ts + _delay t + _duration t - now))].
    split; [reflexivity|]. cbn. rewrite Nat.eqb_refl. cbn. fold t.
    split; [exact Hts|]. split; [by rewrite <- !app_assoc|].
    split; [by repeat constructor|]. split; [by repeat constructor|].
    eexists _, _. by repeat constructor.
  - rewrite (processTween_ended formulas id now w ts (proj1 Hr) Hts Hend). fold t.
    match goal with |- context [stop formulas id true ?w1] => set (w1' := w1) end.
    destruct (resolves_pass formulas t 1 1 0 1 Hr normalizedPosition_end) as (state & Hs & _).
    destruct (stop_true_ok formulas id w1' state (proj1 Hr) Hs) as [w' Hw'].
    pose proof Hw' as Hinv. apply stop_true_inv in Hinv. cbv zeta in Hinv.
    destruct Hinv as (_ & state' & _ & Hi & _ & _ & Htr & _).
    exists w'. eexists. split; [exact Hw'|].
    rewrite Hi. cbn. fold t. split; [exact Hts|].
    split; [rewrite Htr; unfold w1'; cbn [trace emit]; rewrite <- app_assoc; reflexivity|].
    cbn. fold t.
    split; [by repeat constructor|]. split; [by repeat constructor|].
    eexists _, _. by constructor.
Qed.

(** C5, as the code has it: [seek] clamps a negative argument to 0; it
    returns at once, changing nothing, when [timestamp + millisecond] is 0
    (the resulting timestamp is not compared with the present one);
    otherwise it sets the timestamp to [currentTime - millisecond], and for an
    instance that is not playing it then runs one tick at [currentTime],
    reaching both hook points and the step callback, and pauses, so that the
    instance is not playing afterwards. *)
Theorem seek_spec (id : nat) (w : World) (millisecond currentTime now' : Qc) :
  (0 <= Math_max millisecond 0
   /\ (millisecond < 0 -> Math_max millisecond 0 = 0)
   /\ (0 <= millisecond -> Math_max millisecond 0 = millisecond))
  /\ (forall ts, _timestamp (instances w id) = Some ts ->
        ts + Math_max millisecond 0 = 0 ->
        seek formulas id millisecond currentTime now' w = Ok w)
  /\ ((forall ts, _timestamp (instances w id) = Some ts ->
         ts + Math_max millisecond 0 <> 0) ->
      (isPlaying id w = true ->
         seek formulas id millisecond currentTime now' w
         = Ok (modify id (set_timestamp (Some (currentTime - Math_max millisecond 0))) w))
      /\ (isPlaying id w = false ->
          seek formulas id millisecond currentTime now' w
          = (w3 ← processTween formulas id currentTime
                    (modify id (fun t => set_isPaused false (set_isTweening true t))
                       (modify id
                          (set_timestamp (Some (currentTime - Math_max millisecond 0))) w));
             Ok (pause id now' w3))
          /\ (resolves formulas (instances w id) ->
              exists w' called,
                seek formulas id millisecond currentTime now' w = Ok w'
                /\ _timestamp (instances w' id)
                   = Some (currentTime - Math_max millisecond 0)
                /\ isPlaying id w' = false
                /\ trace w' = trace w ++ called
                /\ FilterApplied id "beforeTween" ∈ called
                /\ FilterApplied id "afterTween" ∈ called
                /\ exists state offset,
                     StepCalled id state (_attachment (instances w id)) offset ∈ called))).
Proof.
  split; [apply Math_max_clamps|]. split.
  - intros ts Hts Hzero. unfold seek. rewrite Hts.
    replace (Qceqb _ 0) with true by (symmetry; by apply Qceqb_eq). reflexivity.
  - intros Hguard.
    assert (Hg : match _timestamp (instances w id) with
                 | Some ts => Qceqb (ts + Math_max millisecond 0) 0
                 | None => false
                 end = false).
    { destruct (_timestamp (instances w id)) as [ts|] eqn:Hts; [|reflexivity].
      apply not_true_iff_false. rewrite Qceqb_eq. by apply Hguard. }
    assert (Hplay : forall ts, isPlaying id (modify id (set_timestamp ts) w) = isPlaying id w).
    { intros ts. unfold isPlaying. rewrite instances_modify_same. reflexivity. }
    split.
    + intros Hp. unfold seek. rewrite Hg, Hplay, Hp. reflexivity.
    + intros Hp.
      assert (Heq : seek formulas id millisecond currentTime now' w
          = (w3 ← processTween formulas id currentTime
                    (modify id (fun t => set_isPaused false (set_isTweening true t))
                       (modify id
                          (set_timestamp (Some (currentTime - Math_max millisecond 0))) w));
             Ok (pause id now' w3))).
      { unfold seek. rewrite Hg, Hplay, Hp. reflexivity. }
      split; [exact Heq|]. intros Hr. rewrite Heq.
      match goal with |- context [processTween formulas id currentTime ?w2] =>
        set (w2' := w2) end.
      assert (Hi2 : instances w2' id
                    = set_isPaused false
                        (set_isTweening true
                           (set_timestamp (Some (currentTime - Math_max millisecond 0))
                              (instances w id)))).
      { unfold w2'. by rewrite !instances_modify_same. }
      destruct (processTween_total id currentTime w2'
                  (currentTime - Math_max millisecond 0)) as (w3 & called & -> & H3);
        [rewrite Hi2; exact Hr|by rewrite Hi2|].
      rewrite Hi2 in H3. cbn in H3. destruct H3 as (Hts3 & Htr3 & Hb & Ha & Hstep).
      exists (pause id now' w3), called. split; [reflexivity|].
      unfold pause, isPlaying. rewrite !instances_modify_same. cbn.
      split; [exact Hts3|]. split; [apply andb_false_r|].
      split; [exact Htr3|]. by repeat split.
Qed.

End Seek.

(** ** Configuration *)

Section Configure.

Variable formulas : gmap string (Qc -> Qc).

(** [setConfig] leaves the instance with a start value and a target value
    for every tracked key, and with an easing for every tracked key but
    [__proto__]. *)
Lemma setConfig_tracks id config w key :
  is_Some (_currentState (instances (setConfig id config w) id) !! key) ->
  is_Some (_originalState (instances (setConfig id config w) id) !! key)
  /\ is_Some (_targetState (instances (setConfig id config w) id) !! key)
  /\ (key <> "__proto__" ->
      is_Some (_easing (instances (setConfig id config w) id) !! key)).
Proof.
  unfold setConfig. cbn. rewrite Nat.eqb_refl. cbn. intros Hk.
  split; [exact Hk|]. split.
  - apply lookup_union_is_Some. by right.
  - intros Hproto. rewrite composeEasingObject_lookup. destruct Hk as [v ->].
    replace (String.eqb key "__proto__") with false
      by (symmetry; by apply String.eqb_neq).
    destruct (cfg_easing config) as [[e|o]|]; try by eexists.
    destruct (inherited key); [by eexists|].
    destruct (truthy (o !! key)) eqn:E; [|by eexists].
    destruct (o !! key); [by eexists|discriminate].
Qed.

(** After [setConfig] the instance is well formed as soon as the names in its
    easing object are registered. *)
Lemma setConfig_resolves id config w :
  (forall key, is_Some (_currentState (instances (setConfig id config w) id) !! key) ->
     is_Some (easingOf formulas (_easing (instances (setConfig id config w) id) !! key))) ->
  resolves formulas (instances (setConfig id config w) id).
Proof.
  intros Hcurves. split.
  - unfold setConfig. cbn. by rewrite Nat.eqb_refl.
  - intros key Hk. destruct (setConfig_tracks id config w key Hk) as (Ho & Ht & _).
    split; [exact Ho|]. split; [exact Ht|]. by apply Hcurves.
Qed.

(** An instance whose state has the one key [k] is well formed as soon as
    [k] has both end points and a curve. *)
Lemma resolves_singleton t k v :
  _configured t = true ->
  _currentState t = {[ k := v ]} ->
  is_Some (_originalState t !! k) ->
  is_Some (_targetState t !! k) ->
  is_Some (easingOf formulas (_easing t !! k)) ->
  resolves formulas t.
Proof.
  intros Hc Hcur Ho Ht He. split; [exact Hc|].
  intros key [y Hy]. rewrite Hcur in Hy.
  apply lookup_singleton_Some in Hy as [<- _]. by repeat split.
Qed.

End Configure.

Lemma succeeds_outcome (r : result World) : succeeds r = true -> r = Ok (outcome r).
Proof. destruct r; [reflexivity|discriminate]. Qed.

Ltac by_evaluation := vm_compute; reflexivity.

(** A conjunction of closed facts, each settled by evaluation. *)
Ltac evaluated :=
  lazymatch goal with
  | |- _ /\ _ => split; [by_evaluation | evaluated]
  | |- _ => by_evaluation
  end.

(** A run of the engine on an example world returns: name its outcome. *)
Ltac returns :=
  match goal with
  | |- exists w' : World, ?r = Ok w' /\ _ =>
      exists (outcome r); split; [apply succeeds_outcome; by_evaluation|]
  end.

Lemma world_linear_resolves : resolves registry (instances world_linear 0).
Proof.
  apply (resolves_singleton registry _ "x" (num 0)); try by_evaluation.
  - by eexists.
  - by eexists.
  - by eexists.
Qed.

Lemma world_offset_curve_resolves : resolves registry (instances world_offset_curve 0).
Proof.
  apply (resolves_singleton registry _ "x" (num 0)); try by_evaluation.
  - by eexists.
  - by eexists.
  - by eexists.
Qed.

(** ** The claims on the example worlds *)

Lemma completion_runs_final_pass_witness :
  ((exists w', stop registry 0 true world_linear = Ok w'
               /\ completed registry 0 world_linear w')
   /\ (exists w', processTween registry 0 (num 150) world_linear = Ok w'
                  /\ completed registry 0 world_linear w'))
  /\ exists state,
       Binary64.tweenProps registry64 1 state64_from state64_from state64_to 1 0
         easing64_linear = Some state
       /\ state !! "x" = Some (0x1.6666666666666p-1
                               + (0x1.999999999999ap-4 - 0x1.6666666666666p-1))%float.
Proof.
  destruct (completion_runs_final_pass registry 0 world_linear registry64
              state64_from state64_from state64_to easing64_linear) as [Hworld Hpass].
  split.
  - destruct Hworld as [Hstop Htick]; [exact world_linear_resolves|].
    split; [exact Hstop|].
    apply (Htick (num 150) 0); [reflexivity|apply Qcleb_le; reflexivity].
  - destruct Hpass as (state & Hs & _ & Hkeys).
    + intros key [v Hv]. unfold state64_from in Hv.
      apply lookup_singleton_Some in Hv as [<- _]. by eexists.
    + exists state. split; [exact Hs|].
      destruct (Hkeys "x" (fun p => p) 0x1.6666666666666p-1%float 0x1.999999999999ap-4%float)
        as [_ H]; try reflexivity.
      * by eexists.
      * apply H. reflexivity.
Defined.

(** C1 as the specification words it fails, in both of its parts.  In
    binary64 the final pass of [stop(true)], [tweenProps(1, currentState,
    originalState, targetState, 1, 0, easing)], on a linear tween from 0.7 to
    0.1 leaves 0.09999999999999998, which is not the target value.  And a
    tween that was stopped, which rejects its promise, and started again
    without a new configuration completes with a call of [resolve] on that
    same promise: the promise stays rejected. *)
Lemma completion_misses_target_counterexample :
  (Binary64.easingOf registry64 (easing64_linear !! "x") = Some (fun p => p)
   /\ ((fun p : float => p) 1 =? 1)%float = true
   /\ Binary64.tweenProps registry64 1 state64_from state64_from state64_to 1 0
        easing64_linear
      = Some {[ "x" := 0x1.9999999999998p-4%float ]}
   /\ state64_to !! "x" = Some 0x1.999999999999ap-4%float
   /\ (0x1.9999999999998p-4 =? 0x1.999999999999ap-4)%float = false)
  /\ (exists w',
        processTween registry 0 (num 300) world_restarted = Ok w'
        /\ _promise (instances world_restarted 0) = Some 0%nat
        /\ isPlaying 0 w' = false
        /\ last (trace w') = Some (Resolved (Some 0%nat) {[ "x" := num 10 ]} None)
        /\ settlement 0 (trace w') = Some (Rejected (Some 0%nat) {[ "x" := num 0 ]} None)).
Proof.
  split.
  - evaluated.
  - returns. evaluated.
Qed.

Lemma world_delayed_resolves : resolves registry (instances world_delayed 0).
Proof.
  apply (resolves_singleton registry _ "x" (num 0)); try by_evaluation.
  - by eexists.
  - by eexists.
  - by eexists.
Qed.

Lemma world_paused_resolves : resolves registry (instances world_paused 0).
Proof.
  apply (resolves_singleton registry _ "x" (num 0)); try by_evaluation.
  - by eexists.
  - by eexists.
  - by eexists.
Qed.

Lemma processTween_before_end_witness :
  exists w',
    processTween registry 0 (num 50) world_delayed = Ok w'
    /\ _currentState (instances w' 0) !! "x" = _originalState (instances w' 0) !! "x".
Proof.
  destruct (processTween_before_end registry 0 world_delayed (num 50) 0)
    as (w' & Hw' & _ & _ & Hkeys).
  - exact world_delayed_resolves.
  - reflexivity.
  - reflexivity.
  - exists w'. split; [exact Hw'|].
    destruct (Hkeys "x" (fun p => p) (num 0) (num 10)) as [Hdelay _].
    + by eexists.
    + reflexivity.
    + reflexivity.
    + reflexivity.
    + destruct Hdelay as [_ H]; [reflexivity|]. apply H. reflexivity.
Defined.

(** C2 as the specification words it fails: in the delay window a curve with
    [f 0 = 1] leaves the current state at the target value, not at the
    original one; and a tick after the delay leaves the stored timestamp
    where it was. *)
Lemma delay_window_counterexample :
  (exists w',
     processTween registry 0 (num 50) world_offset_curve = Ok w'
     /\ _timestamp (instances world_offset_curve 0) = Some 0
     /\ _delay (instances world_offset_curve 0) = num 100
     /\ _originalState (instances w' 0) !! "x" = Some (num 0)
     /\ _currentState (instances w' 0) !! "x" = Some (num 10))
  /\ (exists w',
        processTween registry 0 (num 150) world_offset_curve = Ok w'
        /\ _timestamp (instances w' 0) = Some 0
        /\ _timestamp (instances w' 0) <> Some (0 + num 100)).
Proof.
  split.
  - returns. evaluated.
  - returns. split; [by_evaluation|]. vm_compute. discriminate.
Qed.

Lemma seek_spec_witness :
  exists w' called,
    seek registry 0 (num 50) (num 80) (num 80) world_paused = Ok w'
    /\ _timestamp (instances w' 0) = Some (num 80 - Math_max (num 50) 0)
    /\ isPlaying 0 w' = false
    /\ trace w' = trace world_paused ++ called
    /\ FilterApplied 0 "beforeTween" ∈ called
    /\ FilterApplied 0 "afterTween" ∈ called
    /\ exists state offset,
         StepCalled 0 state (_attachment (instances world_paused 0)) offset ∈ called.
Proof.
  destruct (seek_spec registry 0 world_paused (num 50) (num 80) (num 80))
    as (_ & _ & H).
  destruct H as [_ Hidle].
  - intros ts Hts. vm_compute in Hts. injection Hts as <-.
    intros H. apply Qceqb_eq in H. revert H. vm_compute. discriminate.
  - destruct Hidle as [_ H]; [reflexivity|]. apply H. exact world_paused_resolves.
Defined.

(** C5 as the specification words it fails, both ways.  A seek that leaves
    the timestamp of a paused instance where it was (80 - 80 = 0) is not a
    no-op: it runs a tick, which changes the state and the trace.  A seek to
    0 on an instance whose timestamp is 0 is a no-op although the timestamp
    would become 1000. *)
Lemma seek_noop_counterexample :
  (exists w',
     seek registry 0 (num 80) (num 80) (num 80) world_paused = Ok w'
     /\ _timestamp (instances world_paused 0) = Some 0
     /\ _timestamp (instances w' 0) = Some 0
     /\ _currentState (instances world_paused 0) !! "x" = Some (num 0)
     /\ _currentState (instances w' 0) !! "x" = Some (num 8)
     /\ length (trace world_paused) = 2%nat
     /\ length (trace w') = 5%nat)
  /\ (seek registry 0 0 (num 1000) (num 1000) world_linear = Ok world_linear
      /\ _timestamp (instances world_linear 0) = Some 0
      /\ num 1000 - Math_max 0 0 <> 0).
Proof.
  split.
  - returns. evaluated.
  - split; [|split; [by_evaluation|]].
    + unfold seek.
      replace (_timestamp (instances world_linear 0)) with (Some 0) by by_evaluation.
      replace (Qceqb (0 + Math_max 0 0) 0) with true by by_evaluation. reflexivity.
    + intros H. apply Qceqb_eq in H. revert H. vm_compute. discriminate.
Qed.

Lemma stop_absent_removes_last_witness :
  tweenQueue world_idle = [1%nat]
  /\ exists w', stop registry 0 false world_idle = Ok w' /\ tweenQueue w' = [].
Proof.
  split; [reflexivity|].
  destruct (stop_absent_removes_last registry 0 world_idle) as (_ & [w' Hw'] & Hall).
  - change (tweenQueue world_idle) with [1%nat]. set_solver.
  - reflexivity.
  - exists w'. split; [exact Hw'|].
    destruct (Hall false w' Hw') as [Hq _]. rewrite Hq. reflexivity.
Defined.

(** C3 fails on the code: [resume] puts the instance at the front of the run
    queue whether or not it is there already.  A started instance that is
    resumed again, or paused and resumed, is in the queue twice, and one
    [stop] then leaves a stopped instance in the queue. *)
Theorem resume_enqueues_again :
  (forall id now w, tweenQueue (resume id now w).1 = id :: tweenQueue w)
  /\ isPlaying 0 world_linear = true
  /\ tweenQueue world_linear = [0%nat]
  /\ tweenQueue (resume 0 (num 40) world_linear).1 = [0%nat; 0%nat]
  /\ tweenQueue (resume 0 (num 40) world_paused).1 = [0%nat; 0%nat]
  /\ exists w',
       stop registry 0 false (resume 0 (num 40) world_paused).1 = Ok w'
       /\ tweenQueue w' = [0%nat]
       /\ _isTweening (instances w' 0) = false.
Proof.
  split.
  { intros id now w. unfold resume. by destruct (_isPaused (instances w id)). }
  do 4 (split; [by_evaluation|]).
  returns. evaluated.
Qed.

(** C4 fails on the code in what is returned: [tween] on an instance that is
    tweening changes nothing, as claimed, but returns the instance itself,
    where the first call returned the promise. *)
Theorem tween_while_tweening_returns_instance (config : option tweenConfig)
    (now now' : Qc) :
  returned (tween 0 (Some config_linear) 0 0 world0) = Some (Promise (Some 0%nat))
  /\ isPlaying 0 world_linear = true
  /\ tween 0 config now now' world_linear = Ok (world_linear, This 0).
Proof.
  split; [by_evaluation|]. split; [by_evaluation|].
  unfold tween.
  replace (_isTweening (instances world_linear 0)) with true by by_evaluation.
  reflexivity.
Qed.

(** The timeline of C6 on an example: paused at 30 and resumed at 80, the
    tick at 100 leaves what the tick at 50 leaves without the pause. *)
Example pause_resume_example :
  (exists v,
     ticks registry 0 [num 50] world_linear = Ok v
     /\ _currentState (instances v 0) !! "x" = Some (num 5))
  /\ (exists v',
        ticks registry 0 [num 100] (resume 0 (num 80) world_paused).1 = Ok v'
        /\ _currentState (instances v' 0) !! "x" = Some (num 5)).
Proof.
  split; returns; evaluated.
Qed.

(** The loop of C9 on an example: both instances are ticked with the one
    [now]; at 100 instance 0 ends and leaves the queue, and instance 1 is
    still ticked. *)
Example processQueue_example :
  tweenQueue world_two = [1%nat; 0%nat]
  /\ (exists w',
        processQueue registry (num 60) world_two = Ok w'
        /\ tweenQueue w' = [1%nat; 0%nat]
        /\ _currentState (instances w' 0) !! "x" = Some (num 6)
        /\ _currentState (instances w' 1) !! "x" = Some (num 5))
  /\ (exists w',
        processQueue registry (num 100) world_two = Ok w'
        /\ tweenQueue w' = [1%nat]
        /\ _currentState (instances w' 0) !! "x" = Some (num 10)
        /\ _currentState (instances w' 1) !! "x" = Some (num 9)).
Proof.
  split; [by_evaluation|]. split.
  - returns. evaluated.
  - returns. evaluated.
Qed.

(** The scenario of the specification: from 0 to 10 in 100 ms, linear.  The
    tick at 50 leaves 5; the tick at 150 ends the tween at 10 and resolves;
    [stop(false)] after a tick at 30 rejects with 3 and empties the queue. *)
Example linear_scenario :
  (exists w',
     processTween registry 0 (num 50) world_linear = Ok w'
     /\ _currentState (instances w' 0) !! "x" = Some (num 5)
     /\ tweenQueue w' = [0%nat])
  /\ (exists w',
        ticks registry 0 [num 50; num 150] world_linear = Ok w'
        /\ _currentState (instances w' 0) !! "x" = Some (num 10)
        /\ tweenQueue w' = []
        /\ last (trace w') = Some (Resolved (Some 0%nat) {[ "x" := num 10 ]} None))
  /\ (exists w',
        stop registry 0 false (outcome (processTween registry 0 (num 30) world_linear))
        = Ok w'
        /\ tweenQueue w' = []
        /\ last (trace w') = Some (Rejected (Some 0%nat) {[ "x" := num 3 ]} None)).
Proof.
  split; [returns; evaluated|]. split; returns; evaluated.
Qed.

(** * Further properties of the engine *)

(** ** The interpolation pass, characterised *)

Section Pass.

Variable formulas : gmap string (Qc -> Qc).

Lemma tweenProps_step_inv forPosition orig tgt duration timestamp easing key acc s :
  tweenProps_step formulas forPosition orig tgt duration timestamp easing key acc = Ok s ->
  exists c position v,
    acc = Ok c
    /\ normalizedPosition forPosition duration timestamp = Ok position
    /\ tweened formulas orig tgt easing position key = Some v
    /\ s = <[key := v]> c.
Proof.
  unfold tweenProps_step, tweened. destruct acc as [c|e]; cbn; [|discriminate].
  destruct (easingOf formulas (easing !! key)) as [f|]; cbn; [|discriminate].
  destruct (normalizedPosition forPosition duration timestamp) as [position|e];
    cbn; [|discriminate].
  destruct (orig !! key) as [a|]; cbn; [|discriminate].
  destruct (tgt !! key) as [b|]; cbn; [|discriminate].
  intros [= <-]. by exists c, position, (tweenProp a b f position).
Qed.

Lemma tweenProps_fold_inv forPosition orig tgt duration timestamp easing
    (c0 m : gmap string Qc) :
  forall s,
    map_fold (fun key _ acc =>
                tweenProps_step formulas forPosition orig tgt duration timestamp easing key acc)
             (Ok c0) m = Ok s ->
    forall key,
      match m !! key with
      | Some _ => exists position v,
          normalizedPosition forPosition duration timestamp = Ok position
          /\ tweened formulas orig tgt easing position key = Some v
          /\ s !! key = Some v
      | None => s !! key = c0 !! key
      end.
Proof.
  apply (map_fold_weak_ind (fun r (m : gmap string Qc) =>
    forall s, r = Ok s ->
    forall key,
      match m !! key with
      | Some _ => exists position v,
          normalizedPosition forPosition duration timestamp = Ok position
          /\ tweened formulas orig tgt easing position key = Some v
          /\ s !! key = Some v
      | None => s !! key = c0 !! key
      end)).
  - intros s [= <-] key. by rewrite lookup_empty.
  - intros i x m' r Hi IH s Hs key.
    apply tweenProps_step_inv in Hs as (c & position & v & -> & Hp & Hv & ->).
    specialize (IH c eq_refl key).
    destruct (decide (i = key)) as [->|Hne].
    + rewrite !lookup_insert_eq. by exists position, v.
    + rewrite !lookup_insert_ne by done. exact IH.
Qed.

Lemma tweenProps_keys forPosition cur orig tgt duration timestamp easing s :
  tweenProps formulas forPosition cur orig tgt duration timestamp easing = Ok s ->
  forall key, is_Some (s !! key) <-> is_Some (cur !! key).
Proof.
  intros Hs key.
  pose proof (tweenProps_fold_inv _ _ _ _ _ _ cur cur s Hs key) as H.
  destruct (cur !! key) as [x|] eqn:Hk.
  - destruct H as (position & v & _ & _ & ->). split; by eexists.
  - rewrite H. reflexivity.
Qed.

(** A pass over its own result changes nothing: the values written depend on
    the keys of the current state only, not on its values. *)
Lemma tweenProps_again forPosition cur orig tgt duration timestamp easing s :
  tweenProps formulas forPosition cur orig tgt duration timestamp easing = Ok s ->
  tweenProps formulas forPosition s orig tgt duration timestamp easing = Ok s.
Proof.
  intros Hs.
  pose proof (tweenProps_fold_inv _ _ _ _ _ _ cur cur s Hs) as Hinv.
  destruct (normalizedPosition forPosition duration timestamp) as [position|e] eqn:Hp.
  - destruct (tweenProps_ok formulas forPosition s orig tgt duration timestamp easing
                position Hp) as (s' & Hs' & Hl).
    + intros key [x Hk]. specialize (Hinv key).
      destruct (cur !! key).
      * destruct Hinv as (p' & v & [= <-] & Hv & _). by eexists.
      * rewrite Hinv in Hk. discriminate.
    + rewrite Hs'. f_equal. apply map_eq. intros key. rewrite Hl.
      specialize (Hinv key). destruct (cur !! key) as [x|] eqn:Hk.
      * destruct Hinv as (p' & v & [= <-] & Hv & Hsk). rewrite Hsk. exact Hv.
      * rewrite Hinv. reflexivity.
  - assert (Hempty : s = ∅).
    { apply map_empty. intros key. specialize (Hinv key).
      destruct (cur !! key) as [x|] eqn:Hk; [|by rewrite Hinv].
      destruct Hinv as (p' & v & Hp' & _). discriminate. }
    subst s. unfold tweenProps. apply map_fold_empty.
Qed.

(** X1: a pass that returns has written every key of the current state and
    no other key, whatever keys the original and the target state have
    besides: under each it has put [start + (end - start) * f position],
    with the curve of that key and the one position of the pass, which is 0
    when [forPosition] is before [timestamp], whatever the duration.  A pass
    over the empty state returns the empty state, whatever the other
    arguments. *)
Theorem tweenProps_result (forPosition : Qc) (cur orig tgt : gmap string Qc)
    (duration timestamp : Qc) (easing : gmap string easingFn) :
  tweenProps formulas forPosition ∅ orig tgt duration timestamp easing = Ok ∅
  /\ forall s,
       tweenProps formulas forPosition cur orig tgt duration timestamp easing = Ok s ->
       (forall key, is_Some (s !! key) <-> is_Some (cur !! key))
       /\ forall key, is_Some (cur !! key) ->
            exists f a b,
              easingOf formulas (easing !! key) = Some f
              /\ orig !! key = Some a
              /\ tgt !! key = Some b
              /\ s !! key
                 = Some (tweenProp a b f
                           (if Qcltb forPosition timestamp then 0
                            else (forPosition - timestamp) / duration)).
Proof.
  split; [unfold tweenProps; apply map_fold_empty|].
  intros s Hs. split; [exact (tweenProps_keys _ _ _ _ _ _ _ _ Hs)|].
  intros key [x Hk].
  pose proof (tweenProps_fold_inv _ _ _ _ _ _ cur cur s Hs key) as H.
  rewrite Hk in H. destruct H as (position & v & Hp & Hv & ->).
  unfold tweened in Hv.
  destruct (easingOf formulas (easing !! key)) as [f|]; [|discriminate].
  destruct (orig !! key) as [a|]; [|discriminate].
  destruct (tgt !! key) as [b|]; [|discriminate].
  injection Hv as <-. exists f, a, b. do 3 (split; [reflexivity|]).
  unfold normalizedPosition in Hp.
  destruct (Qcltb forPosition timestamp); [by injection Hp as <-|].
  destruct (Qceqb duration 0); [discriminate|]. by injection Hp as <-.
Qed.

End Pass.

(** ** One tick, in full *)

Section Tick.

Variable formulas : gmap string (Qc -> Qc).

(** What a tick that returns has done. *)
Lemma processTween_Ok_inv id now w w' :
  processTween formulas id now w = Ok w' ->
  exists ts state,
    _configured (instances w id) = true
    /\ _timestamp (instances w id) = Some ts
    /\ (forall j, j <> id -> instances w' j = instances w j)
    /\ promises w' = promises w
    /\ ((ts + _delay (instances w id) + _duration (instances w id) <= now
         /\ tweenProps formulas 1 (_currentState (instances w id))
              (_originalState (instances w id)) (_targetState (instances w id)) 1 0
              (_easing (instances w id)) = Ok state
         /\ instances w' id
            = set_currentState state
                (set_isPaused false (set_isTweening false (instances w id)))
         /\ tweenQueue w' = splice1 (indexOf id (tweenQueue w)) (tweenQueue w)
         /\ trace w'
            = trace w ++ [StepCalled id (_targetState (instances w id))
                            (_attachment (instances w id)) (_duration (instances w id));
                          FilterApplied id "beforeTween"; FilterApplied id "afterTween";
                          FilterApplied id "afterTweenEnd";
                          Resolved (_promise (instances w id)) state
                            (_attachment (instances w id))])
        \/ (now < ts + _delay (instances w id) + _duration (instances w id)
            /\ (if Qcltb now (ts + _delay (instances w id))
                then tweenProps formulas 1 (_currentState (instances w id))
                       (_originalState (instances w id)) (_targetState (instances w id))
                       1 1 (_easing (instances w id))
                else tweenProps formulas now (_currentState (instances w id))
                       (_originalState (instances w id)) (_targetState (instances w id))
                       (_duration (instances w id)) (ts + _delay (instances w id))
                       (_easing (instances w id))) = Ok state
            /\ instances w' id = set_currentState state (instances w id)
            /\ tweenQueue w' = tweenQueue w
            /\ trace w'
               = trace w ++ [FilterApplied id "beforeTween"; FilterApplied id "afterTween";
                             StepCalled id state (_attachment (instances w id))
                               (_duration (instances w id)
                                - (ts + _delay (instances w id)
                                   + _duration (instances w id) - now))])).
Proof.
  intros H. set (t := instances w id) in *.
  assert (Hc : _configured t = true).
  { unfold processTween in H. fold t in H. by destruct (_configured t). }
  assert (Hts : exists ts, _timestamp t = Some ts).
  { unfold processTween in H. fold t in H. rewrite Hc in H. cbn in H.
    destruct (_timestamp t); [by eexists|discriminate]. }
  destruct Hts as [ts Hts].
  destruct (Qclt_le_dec now (ts + _delay t + _duration t)) as [Hrun|Hend].
  - rewrite (processTween_running formulas id now w ts Hc Hts Hrun) in H. fold t in H.
    destruct (if Qcltb now (ts + _delay t) then _ else _) as [state|e] eqn:Hs;
      [|discriminate].
    cbn in H. injection H as <-. exists ts, state.
    split; [exact Hc|]. split; [exact Hts|]. split.
    { intros j Hj. cbn. by destruct (Nat.eqb_spec j id). }
    split; [reflexivity|]. right.
    split; [exact Hrun|]. split; [exact Hs|]. split.
    { cbn. by rewrite Nat.eqb_refl. }
    split; [reflexivity|]. cbn. rewrite <- !app_assoc. reflexivity.
  - rewrite (processTween_ended formulas id now w ts Hc Hts Hend) in H. fold t in H.
    apply stop_true_inv in H. cbv zeta in H. cbn [instances emit trace tweenQueue] in H.
    fold t in H. destruct H as (_ & state & Hs & Hi & Hother & Hq & Htr & Hp).
    exists ts, state.
    split; [exact Hc|]. split; [exact Hts|]. split; [exact Hother|].
    split; [exact Hp|]. left.
    split; [exact Hend|]. split; [exact Hs|]. split; [exact Hi|]. split; [exact Hq|].
    rewrite Htr, <- app_assoc. cbn.
    replace (_duration t - (ts + _delay t + _duration t - (ts + _delay t + _duration t)))
      with (_duration t) by ring.
    reflexivity.
Qed.

Lemma processTween_same_config id now w w' :
  processTween formulas id now w = Ok w' ->
  same_config (instances w id) (instances w' id).
Proof.
  intros H. apply processTween_Ok_inv in H
    as (ts & state & _ & _ & _ & _ & [(_ & Hs & -> & _)|(_ & Hs & -> & _)]).
  - unfold same_config. cbn. do 9 (split; [reflexivity|]).
    exact (tweenProps_keys formulas _ _ _ _ _ _ _ _ Hs).
  - unfold same_config. cbn. do 9 (split; [reflexivity|]).
    destruct (Qcltb now _); exact (tweenProps_keys formulas _ _ _ _ _ _ _ _ Hs).
Qed.

Lemma resolves_same_config t t' :
  same_config t t' -> resolves formulas t -> resolves formulas t'.
Proof.
  intros (Hc & _ & _ & _ & Ho & Ht & He & _ & _ & Hk) [Hconf Hr].
  split; [congruence|]. intros key Hkey. rewrite Ho, Ht, He.
  apply Hr. by apply Hk.
Qed.

End Tick.

Section TickProperties.

Variable formulas : gmap string (Qc -> Qc).

(** X2: a second tick at the same time leaves the current state of the first:
    an instance that is in the run queue twice is stepped twice in one
    invocation of the loop, and its state is the same as if stepped once. *)
Theorem processTween_twice (id : nat) (now : Qc) (w w' : World) :
  processTween formulas id now w = Ok w' ->
  exists w'',
    processTween formulas id now w' = Ok w''
    /\ _currentState (instances w'' id) = _currentState (instances w' id).
Proof.
  intros H. apply processTween_Ok_inv in H
    as (ts & state & Hc & Hts & _ & _ & [(Hend & Hs & Hi & _)|(Hrun & Hs & Hi & _)]).
  - rewrite (processTween_ended formulas id now w' ts); rewrite ?Hi; try done.
    cbn [_targetState _attachment _duration _delay set_currentState set_isPaused
         set_isTweening].
    match goal with |- context [stop formulas id true ?w1] => set (w1' := w1) end.
    assert (Hi1 : instances w1' id = instances w' id) by reflexivity.
    apply (tweenProps_again formulas) in Hs.
    destruct (stop_true_ok formulas id w1' state) as [w'' Hw''].
    { rewrite Hi1, Hi. exact Hc. }
    { rewrite Hi1, Hi. exact Hs. }
    exists w''. split; [exact Hw''|].
    apply stop_true_inv in Hw''. cbv zeta in Hw''.
    destruct Hw'' as (_ & state' & Hs' & -> & _).
    rewrite Hi1, Hi in Hs'. cbn in Hs'. rewrite Hs in Hs'. injection Hs' as <-.
    rewrite Hi1, Hi. reflexivity.
  - rewrite (processTween_running formulas id now w' ts); rewrite ?Hi; try done.
    cbn [_currentState _originalState _targetState _easing _attachment _duration _delay
         set_currentState].
    assert (Hs' : (if Qcltb now (ts + _delay (instances w id))
                   then tweenProps formulas 1 state (_originalState (instances w id))
                          (_targetState (instances w id)) 1 1 (_easing (instances w id))
                   else tweenProps formulas now state (_originalState (instances w id))
                          (_targetState (instances w id)) (_duration (instances w id))
                          (ts + _delay (instances w id)) (_easing (instances w id)))
                  = Ok state).
    { destruct (Qcltb now _); by apply (tweenProps_again formulas) in Hs. }
    rewrite Hs'. cbn. eexists. split; [reflexivity|]. cbn.
    by rewrite Nat.eqb_refl.
Qed.

(** X3: the calls of a tick, in their order.  Before the end time the hook
    points come first and the step callback last, with the new current state
    and the offset [duration - (timestamp + delay + duration - now)]; the
    queue is left alone.  At or after the end time the step callback comes
    first, with the target state and the duration as offset however late the
    tick is, and then the hook points and the call of [resolve] with the
    final state. *)
Theorem processTween_events (id : nat) (w : World) (now ts : Qc) :
  resolves formulas (instances w id) ->
  _timestamp (instances w id) = Some ts ->
  exists w',
    processTween formulas id now w = Ok w'
    /\ (now < ts + _delay (instances w id) + _duration (instances w id) ->
        trace w'
        = trace w ++ [FilterApplied id "beforeTween"; FilterApplied id "afterTween";
                      StepCalled id (_currentState (instances w' id))
                        (_attachment (instances w id))
                        (_duration (instances w id)
                         - (ts + _delay (instances w id)
                            + _duration (instances w id) - now))]
        /\ tweenQueue w' = tweenQueue w
        /\ isPlaying id w' = isPlaying id w)
    /\ (ts + _delay (instances w id) + _duration (instances w id) <= now ->
        trace w'
        = trace w ++ [StepCalled id (_targetState (instances w id))
                        (_attachment (instances w id)) (_duration (instances w id));
                      FilterApplied id "beforeTween"; FilterApplied id "afterTween";
                      FilterApplied id "afterTweenEnd";
                      Resolved (_promise (instances w id))
                        (_currentState (instances w' id))
                        (_attachment (instances w id))]
        /\ isPlaying id w' = false).
Proof.
  intros Hr Hts.
  destruct (processTween_total formulas id now w ts Hr Hts) as (w' & called & Hw' & _).
  exists w'. split; [exact Hw'|].
  apply processTween_Ok_inv in Hw'
    as (ts' & state & _ & Hts' & _ & _ & [(Hend & _ & Hi & _ & Htr)|(Hrun & _ & Hi & Hq & Htr)]);
    rewrite Hts in Hts'; injection Hts' as <-.
  - split.
    + intros Hrun. exfalso. exact (Qclt_not_le _ _ Hrun Hend).
    + intros _. rewrite Htr. unfold isPlaying. rewrite Hi. by cbn.
  - split.
    + intros _. rewrite Htr. unfold isPlaying. rewrite Hi. by cbn.
    + intros Hend. exfalso. exact (Qclt_not_le _ _ Hrun Hend).
Qed.

Lemma unit_interval (x d : Qc) : 0 <= x -> x < d -> 0 <= x / d /\ x / d < 1.
Proof.
  intros H0 Hd.
  assert (Hpos : 0 < d) by exact (Qcle_lt_trans _ _ _ H0 Hd).
  assert (Hne : d <> 0) by (intros ->; exact (Qclt_not_eq _ _ Hpos eq_refl)).
  assert (Hmul : x / d * d = x).
  { unfold Qcdiv. rewrite <- Qcmult_assoc, Qcmult_inv_l by exact Hne. ring. }
  split.
  - apply (Qcmult_lt_0_le_reg_r _ _ d Hpos). rewrite Hmul.
    replace (0 * d) with 0 by ring. exact H0.
  - apply Qcnot_le_lt. intros Hge.
    apply (Qcmult_le_compat_r _ _ d) in Hge; [|by apply Qclt_le_weak].
    rewrite Hmul in Hge. replace (1 * d) with d in Hge by ring.
    exact (Qclt_not_le _ _ Hd Hge).
Qed.

(** X4: a tick between the end of the delay and the end time interpolates at
    a position in [0, 1): the loop never extrapolates. *)
Theorem processTween_position_in_unit_interval (id : nat) (w : World) (now ts : Qc) :
  resolves formulas (instances w id) ->
  _timestamp (instances w id) = Some ts ->
  ts + _delay (instances w id) <= now ->
  now < ts + _delay (instances w id) + _duration (instances w id) ->
  exists w' position,
    processTween formulas id now w = Ok w'
    /\ 0 <= position /\ position < 1
    /\ forall key, is_Some (_currentState (instances w id) !! key) ->
         _currentState (instances w' id) !! key
         = tweened formulas (_originalState (instances w id))
             (_targetState (instances w id)) (_easing (instances w id)) position key.
Proof.
  intros Hr Hts Hdelay Hrun. set (t := instances w id) in *.
  rewrite (processTween_running formulas id now w ts (proj1 Hr) Hts Hrun). fold t.
  replace (Qcltb now (ts + _delay t)) with false by (symmetry; by apply Qcltb_ge).
  destruct (resolves_pass formulas t now (_duration t) (ts + _delay t) _ Hr
              (normalizedPosition_progress now (_duration t) (ts + _delay t) Hdelay Hrun))
    as (state & -> & Hl).
  eexists. exists ((now - (ts + _delay t)) / _duration t).
  split; [reflexivity|].
  destruct (unit_interval (now - (ts + _delay t)) (_duration t)) as [H0 H1].
  { apply Qcle_minus_iff in Hdelay. exact Hdelay. }
  { apply Qclt_minus_iff. apply Qclt_minus_iff in Hrun.
    replace (_duration t + - (now - (ts + _delay t)))
      with (ts + _delay t + _duration t + - now) by ring. exact Hrun. }
  split; [exact H0|]. split; [exact H1|].
  intros key [x Hk]. cbn. rewrite Nat.eqb_refl. cbn. rewrite Hl. fold t. by rewrite Hk.
Qed.

(** X5: ticking a well-formed instance that has a timestamp never fails,
    whatever the times and their order, and leaves the configuration, the
    stored timestamp and the tracked keys as they were. *)
Theorem ticks_total (id : nat) (nows : list Qc) (w : World) :
  resolves formulas (instances w id) ->
  is_Some (_timestamp (instances w id)) ->
  exists w',
    ticks formulas id nows w = Ok w'
    /\ same_config (instances w id) (instances w' id)
    /\ resolves formulas (instances w' id).
Proof.
  revert w. induction nows as [|now rest IH]; intros w Hr [ts Hts].
  - exists w. split; [reflexivity|]. split; [|exact Hr].
    unfold same_config. by repeat split.
  - destruct (processTween_total formulas id now w ts Hr Hts) as (w1 & called & Hw1 & _).
    pose proof (processTween_same_config formulas id now w w1 Hw1) as Hsame.
    pose proof (resolves_same_config formulas _ _ Hsame Hr) as Hr1.
    destruct (IH w1 Hr1) as (w' & Hw' & Hsame' & Hr').
    { destruct Hsame as (_ & _ & _ & _ & _ & _ & _ & _ & -> & _). by eexists. }
    exists w'. cbn [ticks]. rewrite Hw1. cbn. split; [exact Hw'|]. split; [|exact Hr'].
    destruct Hsame as (A1 & A2 & A3 & A4 & A5 & A6 & A7 & A8 & A9 & A10).
    destruct Hsame' as (B1 & B2 & B3 & B4 & B5 & B6 & B7 & B8 & B9 & B10).
    unfold same_config. repeat split; try congruence.
    + intros H. apply A10, B10, H.
    + intros H. apply B10, A10, H.
Qed.

End TickProperties.

(** ** The scheduler loop, further *)

Section SchedulerProperties.

Variable formulas : gmap string (Qc -> Qc).

Lemma processQueue_as_walk now w :
  processQueue formulas now w = tick_each formulas now (reverse (tweenQueue w)) w.
Proof.
  unfold processQueue. rewrite processQueue_loop_walk by lia. by rewrite firstn_all.
Qed.

Lemma tick_each_idle now entries w :
  (forall id, id ∈ entries -> isPlaying id w = false) ->
  tick_each formulas now entries w = Ok w.
Proof.
  induction entries as [|id rest IH]; intros Hidle; [reflexivity|].
  cbn [tick_each]. rewrite (Hidle id) by constructor. cbn [negb].
  apply IH. intros j Hj. apply Hidle. by constructor.
Qed.

(** X6: an invocation of the loop on a queue with no playing entry does
    nothing at all: paused instances stay queued and are passed over. *)
Theorem processQueue_idle (now : Qc) (w : World) :
  (forall id, id ∈ tweenQueue w -> isPlaying id w = false) ->
  processQueue formulas now w = Ok w.
Proof.
  intros Hidle. rewrite processQueue_as_walk. apply tick_each_idle.
  intros id Hid. apply Hidle. by rewrite elem_of_reverse in Hid.
Qed.

Lemma tick_each_frame now entries :
  forall w w',
    tick_each formulas now entries w = Ok w' ->
    (forall j, j ∉ entries -> instances w' j = instances w j)
    /\ tweenQueue w' `sublist_of` tweenQueue w
    /\ (exists called, trace w' = trace w ++ called)
    /\ promises w' = promises w.
Proof.
  induction entries as [|id rest IH]; intros w w' H.
  - injection H as <-. split; [done|]. split; [done|]. split; [|done].
    exists []. by rewrite app_nil_r.
  - cbn [tick_each] in H. destruct (negb (isPlaying id w)).
    + destruct (IH w w' H) as (Hi & Hq & Ht & Hp).
      split; [|done]. intros j Hj. apply Hi.
      by apply not_elem_of_cons in Hj as [_ Hj].
    + destruct (processTween formulas id now w) as [w1|e] eqn:H1; [|discriminate].
      cbn in H. destruct (IH w1 w' H) as (Hi & Hq & [called Ht] & Hp).
      apply processTween_Ok_inv in H1
        as (ts & state & _ & _ & Hother & Hp1 & Hcase).
      split; [|split; [|split]].
      * intros j Hj. apply not_elem_of_cons in Hj as [Hne Hj].
        rewrite (Hi j Hj). by apply Hother.
      * etrans; [exact Hq|].
        destruct Hcase as [(_ & _ & _ & -> & _)|(_ & _ & _ & -> & _)]; [|done].
        destruct (decide (id ∈ tweenQueue w)) as [Hin|Hout].
        -- destruct (indexOf_present id _ Hin) as (j & -> & _).
           rewrite splice1_at. apply sublist_delete.
        -- rewrite (indexOf_absent id _ Hout), splice1_minus_one.
           rewrite <- delete_last_removelast. apply sublist_delete.
      * destruct Hcase as [(_ & _ & _ & _ & Htr)|(_ & _ & _ & _ & Htr)];
          rewrite Ht, Htr, <- app_assoc; by eexists.
      * congruence.
Qed.

(** X7: an invocation of the loop touches queued instances only, never adds
    to the run queue or reorders it, keeps the trace it found as a prefix, and
    constructs no promise. *)
Theorem processQueue_frame (now : Qc) (w w' : World) :
  processQueue formulas now w = Ok w' ->
  (forall j, j ∉ tweenQueue w -> instances w' j = instances w j)
  /\ tweenQueue w' `sublist_of` tweenQueue w
  /\ (exists called, trace w' = trace w ++ called)
  /\ promises w' = promises w.
Proof.
  rewrite processQueue_as_walk. intros H.
  destruct (tick_each_frame now _ w w' H) as (Hi & Hrest).
  split; [|exact Hrest]. intros j Hj. apply Hi. by rewrite elem_of_reverse.
Qed.

Lemma tick_each_total now entries :
  forall w,
    (forall id, id ∈ entries ->
       resolves formulas (instances w id) /\ is_Some (_timestamp (instances w id))) ->
    exists w', tick_each formulas now entries w = Ok w'.
Proof.
  induction entries as [|id rest IH]; intros w Hall; [by exists w|].
  cbn [tick_each]. destruct (negb (isPlaying id w)).
  - apply IH. intros j Hj. apply Hall. by constructor.
  - destruct (Hall id) as [Hr [ts Hts]]; [by constructor|].
    destruct (processTween_total formulas id now w ts Hr Hts) as (w1 & called & Hw1 & _).
    rewrite Hw1. cbn. apply IH. intros j Hj.
    destruct (decide (j = id)) as [->|Hne].
    + pose proof (processTween_same_config formulas id now w w1 Hw1) as Hsame.
      split; [exact (resolves_same_config formulas _ _ Hsame Hr)|].
      destruct Hsame as (_ & _ & _ & _ & _ & _ & _ & _ & -> & _). by eexists.
    + apply processTween_Ok_inv in Hw1 as (_ & _ & _ & _ & Hother & _).
      rewrite (Hother j Hne). apply Hall. by constructor.
Qed.

(** X8: when every queued instance is well formed and has a timestamp, an
    invocation of the loop returns: nothing in it throws, also when instances
    end and leave the queue during the walk. *)
Theorem processQueue_total (now : Qc) (w : World) :
  (forall id, id ∈ tweenQueue w ->
     resolves formulas (instances w id) /\ is_Some (_timestamp (instances w id))) ->
  exists w', processQueue formulas now w = Ok w'.
Proof.
  intros Hall. rewrite processQueue_as_walk. apply tick_each_total.
  intros id Hid. apply Hall. by rewrite elem_of_reverse in Hid.
Qed.

(** X9: [dispose] does not dequeue.  The entries of a disposed instance stay
    in the run queue, the loop passes over them, and the rest of the queue is
    ticked as ever; a later [stop] of the disposed instance throws. *)
Theorem dispose_leaves_queue (id : nat) (now : Qc) (w : World) :
  tweenQueue (dispose id w) = tweenQueue w
  /\ isPlaying id (dispose id w) = false
  /\ processQueue formulas now (dispose id w)
     = tick_each formulas now
         (filter (fun j => j <> id) (reverse (tweenQueue w))) (dispose id w)
  /\ forall gotoEnd, stop formulas id gotoEnd (dispose id w) = Err TypeError.
Proof.
  assert (Hidle : isPlaying id (dispose id w) = false).
  { unfold isPlaying, dispose. by rewrite instances_modify_same. }
  split; [reflexivity|]. split; [exact Hidle|]. split.
  - rewrite processQueue_as_walk. by apply tick_each_skip.
  - intros gotoEnd. unfold stop, dispose. rewrite instances_modify_same. reflexivity.
Qed.

End SchedulerProperties.

(** ** Configuring and starting *)

Section Starting.

Variable formulas : gmap string (Qc -> Qc).

(** X10: [setConfig] starts from [from], or from the current state when
    there is no [from]; the original state is that same state; the target
    gives every tracked key a destination, the one in [to] when [to] has the
    key and the starting value otherwise, and keeps the other keys of [to];
    delay and duration default to 0 and 500. *)
Theorem setConfig_states (id : nat) (config : tweenConfig) (w : World) (key : string) :
  _currentState (instances (setConfig id config w) id)
  = default (_currentState (instances w id)) (cfg_from config)
  /\ _originalState (instances (setConfig id config w) id)
     = _currentState (instances (setConfig id config w) id)
  /\ _targetState (instances (setConfig id config w) id) !! key
     = match cfg_to config with
       | Some to =>
           match to !! key with
           | Some v => Some v
           | None => _currentState (instances (setConfig id config w) id) !! key
           end
       | None => _currentState (instances (setConfig id config w) id) !! key
       end
  /\ _delay (instances (setConfig id config w) id) = default 0 (cfg_delay config)
  /\ _duration (instances (setConfig id config w) id)
     = default (num 500) (cfg_duration config).
Proof.
  unfold setConfig, get. cbn. rewrite Nat.eqb_refl. cbn.
  split; [reflexivity|]. split; [reflexivity|]. split; [|split; reflexivity].
  destruct (cfg_to config) as [to|]; cbn.
  - rewrite lookup_union.
    by destruct (to !! key), (default _ (cfg_from config) !! key).
  - rewrite lookup_union. by destruct (default _ (cfg_from config) !! key).
Qed.

(** X11: [setConfig] configures and does nothing else: the timestamp, the
    playing and paused flags, the run queue and the other instances are as
    before, a new promise is constructed each time, and the pause time is
    reset to [null] even while the instance is paused, so that a [resume]
    after reconfiguring a paused instance adds the whole clock reading to
    the timestamp, not the time spent paused. *)
Theorem setConfig_frame (id : nat) (config : tweenConfig) (w : World) (t_p t_r : Qc) :
  (_timestamp (instances (setConfig id config w) id) = _timestamp (instances w id)
   /\ _isTweening (instances (setConfig id config w) id) = _isTweening (instances w id)
   /\ _isPaused (instances (setConfig id config w) id) = _isPaused (instances w id)
   /\ tweenQueue (setConfig id config w) = tweenQueue w
   /\ (forall j, j <> id -> instances (setConfig id config w) j = instances w j)
   /\ trace (setConfig id config w) = trace w ++ [FilterApplied id "tweenCreated"])
  /\ (_promise (instances (setConfig id config w) id) = Some (promises w)
      /\ promises (setConfig id config w) = S (promises w))
  /\ _timestamp (instances (resume id t_r (setConfig id config (pause id t_p w))).1 id)
     = ((fun ts => ts + (t_r - 0)) <$> _timestamp (instances w id)).
Proof.
  split; [|split].
  - unfold setConfig. cbn. rewrite Nat.eqb_refl. cbn. repeat split.
    intros j Hj. by destruct (Nat.eqb_spec j id).
  - unfold setConfig. cbn. rewrite Nat.eqb_refl. by cbn.
  - unfold resume, setConfig, pause. cbn. rewrite !Nat.eqb_refl. cbn.
    rewrite !Nat.eqb_refl. cbn. by destruct (_timestamp (instances w id)).
Qed.

(** X12: [tween(config)] on an instance that is not tweening configures it,
    calls [start] with the starting state and the attachment the instance
    had before this configuration, puts the instance at the front of the run
    queue, makes it play and returns the promise just constructed.  The
    timestamp is the clock reading, unless the instance was left paused:
    then the second clock reading is added to it. *)
Theorem tween_starts (id : nat) (config : tweenConfig) (now now' : Qc) (w : World) :
  _isTweening (instances w id) = false ->
  exists w',
    tween id (Some config) now now' w = Ok (w', Promise (Some (promises w)))
    /\ isPlaying id w' = true
    /\ tweenQueue w' = id :: tweenQueue w
    /\ _timestamp (instances w' id)
       = Some (if _isPaused (instances w id) then now + (now' - 0) else now)
    /\ _currentState (instances w' id)
       = default (_currentState (instances w id)) (cfg_from config)
    /\ trace w'
       = trace w ++ [FilterApplied id "tweenCreated";
                     StartCalled id (_currentState (instances w' id))
                       (_attachment (instances w id))]
    /\ promises w' = S (promises w).
Proof.
  intros Hidle. unfold tween. rewrite Hidle. cbn.
  unfold resume, setConfig, get. cbn. rewrite !Nat.eqb_refl. cbn.
  destruct (_isPaused (instances w id)); cbn; rewrite ?Nat.eqb_refl; cbn.
  - eexists. split; [reflexivity|]. unfold isPlaying. cbn. rewrite !Nat.eqb_refl. cbn.
    do 4 (split; [reflexivity|]). split; [by rewrite <- app_assoc|reflexivity].
  - eexists. split; [reflexivity|]. unfold isPlaying. cbn. rewrite !Nat.eqb_refl. cbn.
    do 4 (split; [reflexivity|]). split; [by rewrite <- app_assoc|reflexivity].
Qed.

(** X13: [tween()] without a configuration throws on an instance that was
    never configured; on a configured instance that is not tweening it starts
    the old configuration again from the state the instance is in, and
    returns the promise of that configuration, settled or not. *)
Theorem tween_without_config (id : nat) (now now' : Qc) (w : World) :
  _isTweening (instances w id) = false ->
  (_configured (instances w id) = false ->
   tween id None now now' w = Err TypeError)
  /\ (_configured (instances w id) = true ->
      exists w',
        tween id None now now' w = Ok (w', Promise (_promise (instances w id)))
        /\ isPlaying id w' = true
        /\ tweenQueue w' = id :: tweenQueue w
        /\ _currentState (instances w' id) = _currentState (instances w id)
        /\ _originalState (instances w' id) = _originalState (instances w id)
        /\ _promise (instances w' id) = _promise (instances w id)
        /\ promises w' = promises w
        /\ trace w'
           = trace w ++ [StartCalled id (_currentState (instances w id))
                           (_attachment (instances w id))]).
Proof.
  intros Hidle. split; intros Hc; unfold tween; rewrite Hidle, Hc; cbn; [reflexivity|].
  unfold resume, get. cbn. rewrite !Nat.eqb_refl. cbn.
  destruct (_isPaused (instances w id)); cbn; rewrite ?Nat.eqb_refl; cbn.
  - eexists. split; [reflexivity|]. unfold isPlaying. cbn. rewrite !Nat.eqb_refl. by cbn.
  - eexists. split; [reflexivity|]. unfold isPlaying. cbn. rewrite !Nat.eqb_refl. by cbn.
Qed.

(** X14: the exported [tween] function never throws: it starts a new
    instance, which plays from the front of the run queue with the clock
    reading as its timestamp, and returns the promise it constructed.
    Without a [from] the instance tracks no key. *)
Theorem tween_standalone_starts (id : nat) (config : option tweenConfig)
    (now now' : Qc) (w : World) :
  exists w',
    tween_standalone id config now now' w = Ok (w', Promise (Some (promises w)))
    /\ isPlaying id w' = true
    /\ tweenQueue w' = id :: tweenQueue w
    /\ _timestamp (instances w' id) = Some now
    /\ _currentState (instances w' id)
       = default ∅ (cfg_from (default config_empty config))
    /\ (forall j, j <> id -> instances w' j = instances w j).
Proof.
  unfold tween_standalone, tween, construct. cbn. rewrite Nat.eqb_refl. cbn.
  unfold resume, setConfig, get. cbn. rewrite !Nat.eqb_refl. cbn.
  eexists. split; [reflexivity|]. unfold isPlaying. cbn. rewrite !Nat.eqb_refl. cbn.
  do 4 (split; [reflexivity|]). intros j Hj. by destruct (Nat.eqb_spec j id).
Qed.

End Starting.

(** ** Pausing, stopping, seeking *)

Section Control.

Variable formulas : gmap string (Qc -> Qc).

(** X15: [pause] on a paused instance starts the pause anew: the earlier
    pause time is forgotten, and [resume] moves the timestamp by the time
    since the last [pause] only.  [pause] never touches the run queue. *)
Theorem pause_again_restarts_pause (id : nat) (t1 t2 t3 : Qc) (w : World) :
  instances (pause id t2 (pause id t1 w)) id = instances (pause id t2 w) id
  /\ tweenQueue (pause id t2 (pause id t1 w)) = tweenQueue w
  /\ isPlaying id (pause id t1 w) = false
  /\ _timestamp (instances (resume id t3 (pause id t2 (pause id t1 w))).1 id)
     = ((fun ts => ts + (t3 - t2)) <$> _timestamp (instances w id)).
Proof.
  unfold pause, resume, isPlaying. cbn. rewrite !Nat.eqb_refl. cbn.
  rewrite !Nat.eqb_refl. cbn.
  split; [reflexivity|]. split; [reflexivity|]. split; [apply andb_false_r|].
  by destruct (_timestamp (instances w id)).
Qed.

Lemma indexOf_split (id : nat) (q : list nat) :
  id ∈ q ->
  exists l1 l2,
    q = l1 ++ (id :: l2) /\ (id ∉ l1)
    /\ splice1 (indexOf id q) q = l1 ++ l2.
Proof.
  intros Hin. destruct (indexOf_present id q Hin) as (j & -> & Hj & Hfirst).
  rewrite splice1_at.
  exists (take j q), (drop (S j) q). split; [|split].
  - rewrite <- (take_drop_middle q j id Hj) at 1. reflexivity.
  - intros Ht. apply list_elem_of_lookup in Ht as [k Hk].
    pose proof (lookup_lt_Some _ _ _ Hk) as Hlt. rewrite length_take in Hlt.
    rewrite lookup_take_lt in Hk by lia. apply (Hfirst k); [lia|exact Hk].
  - apply delete_take_drop.
Qed.

(** X16: [stop] on a queued instance removes its first entry and nothing
    else: the other entries keep their order, and an instance that was
    queued once is no longer queued.  The instance is not playing afterwards
    and keeps its timestamp and configuration. *)
Theorem stop_removes_first_entry (id : nat) (gotoEnd : bool) (w w' : World) :
  id ∈ tweenQueue w ->
  stop formulas id gotoEnd w = Ok w' ->
  (exists l1 l2,
     tweenQueue w = l1 ++ (id :: l2) /\ (id ∉ l1) /\ tweenQueue w' = l1 ++ l2)
  /\ (NoDup (tweenQueue w) -> id ∉ tweenQueue w')
  /\ isPlaying id w' = false
  /\ _timestamp (instances w' id) = _timestamp (instances w id)
  /\ forall j, j <> id -> instances w' j = instances w j.
Proof.
  intros Hin Hstop.
  pose proof (stop_queue formulas id gotoEnd w w' Hstop) as Hq.
  destruct (indexOf_split id _ Hin) as (l1 & l2 & Heq & Hl1 & Hsp).
  rewrite Hsp in Hq.
  assert (Hrest : isPlaying id w' = false
                  /\ _timestamp (instances w' id) = _timestamp (instances w id)
                  /\ forall j, j <> id -> instances w' j = instances w j).
  { destruct gotoEnd.
    - apply stop_true_inv in Hstop. cbv zeta in Hstop.
      destruct Hstop as (_ & state & _ & Hi & Hother & _).
      unfold isPlaying. rewrite Hi. by cbn.
    - apply stop_false_inv in Hstop. cbv zeta in Hstop.
      destruct Hstop as (_ & Hi & Hother & _).
      unfold isPlaying. rewrite Hi. by cbn. }
  split; [by exists l1, l2|]. split; [|exact Hrest].
  intros Hnd. rewrite Hq. rewrite Heq in Hnd.
  apply NoDup_app in Hnd as (_ & Hdisj & Hnd2). apply NoDup_cons in Hnd2 as [Hl2 _].
  intros Hx. apply elem_of_app in Hx as [Hx|Hx]; [by apply Hl1|by apply Hl2].
Qed.

(** X17: an easing object that was composed for a state none of whose keys
    names a member of [Object.prototype] comes back when it is composed
    again for the same keys, and so [setConfig] can be given the easing of an
    earlier configuration.  The composed object depends on the keys of the
    state only, and in it every entry is truthy, unless the one easing given
    for all keys is itself the empty string. *)
Theorem composeEasingObject_recompose (state state' : gmap string Qc)
    (easing : option easingArg) :
  (forall e, easing = Some (EasingOne e) -> truthy (Some e) = true) ->
  (forall key, is_Some (state' !! key) <-> is_Some (state !! key)) ->
  ((forall key, is_Some (state !! key) -> inherited key = false) ->
   composeEasingObject state'
     (Some (EasingObject (composeEasingObject state easing)))
   = composeEasingObject state easing)
  /\ composeEasingObject state' easing = composeEasingObject state easing
  /\ forall key e,
       composeEasingObject state easing !! key = Some e -> truthy (Some e) = true.
Proof.
  intros Htruthy Hkeys.
  assert (Hall : forall key e,
            composeEasingObject state easing !! key = Some e -> truthy (Some e) = true).
  { intros key e. rewrite composeEasingObject_lookup.
    destruct (state !! key); [|discriminate].
    destruct (String.eqb key "__proto__"); [discriminate|].
    destruct easing as [[e'|o]|].
    - intros [= <-]. by apply Htruthy.
    - destruct (inherited key); [by intros [= <-]|].
      destruct (truthy (o !! key)) eqn:E; [|by intros [= <-]].
      intros H. by rewrite H in E.
    - by intros [= <-]. }
  split; [|split; [|exact Hall]].
  - intros Hplain. apply map_eq. intros key. rewrite composeEasingObject_lookup.
    destruct (Hkeys key) as [H1 H2].
    destruct (state' !! key) as [x|] eqn:Hk'.
    + assert (Hin : inherited key = false) by (apply Hplain, H1; by eexists).
      assert (Hproto : String.eqb key "__proto__" = false)
        by (apply String.eqb_neq; by apply inherited___proto__).
      rewrite Hin, Hproto.
      destruct (composeEasingObject state easing !! key) as [e|] eqn:He.
      * by rewrite (Hall key e He).
      * exfalso. rewrite composeEasingObject_lookup in He.
        destruct H1 as [y Hy]; [by eexists|]. rewrite Hy, Hproto, Hin in He.
        destruct easing as [[e'|o]|]; try discriminate.
        destruct (o !! key) as [e|]; [|discriminate].
        destruct (truthy (Some e)); discriminate.
    + rewrite composeEasingObject_lookup.
      destruct (state !! key) as [y|] eqn:Hk; [|reflexivity].
      destruct H2 as [? ?]; [by eexists|discriminate].
  - apply map_eq. intros key. rewrite !composeEasingObject_lookup.
    destruct (Hkeys key) as [H1 H2].
    destruct (state' !! key) as [x|], (state !! key) as [y|]; try reflexivity.
    + destruct H1 as [? ?]; [by eexists|discriminate].
    + destruct H2 as [? ?]; [by eexists|discriminate].
Qed.

End Control.

(** ** The state after a tick, in closed form *)

Section ClosedForm.

Variable formulas : gmap string (Qc -> Qc).

Lemma position_of_ended (now ts delay duration : Qc) :
  ts + delay + duration <= now -> position_of now ts delay duration = 1.
Proof.
  intros Hend. unfold position_of. rewrite (Math_min_r _ _ Hend).
  by replace (Qcleb _ _) with true by (symmetry; apply Qcleb_le, Qcle_refl).
Qed.

Lemma position_of_running (now ts delay duration : Qc) :
  now < ts + delay + duration ->
  position_of now ts delay duration
  = if Qcltb now (ts + delay) then 0 else (now - (ts + delay)) / duration.
Proof.
  intros Hrun. unfold position_of. rewrite (Math_min_l _ _ Hrun).
  by replace (Qcleb _ _) with false by (symmetry; by apply Qcleb_gt).
Qed.

Lemma processTween_state_at id w now ts :
  resolves formulas (instances w id) ->
  _timestamp (instances w id) = Some ts ->
  exists w',
    processTween formulas id now w = Ok w'
    /\ forall key, is_Some (_currentState (instances w id) !! key) ->
         _currentState (instances w' id) !! key
         = tweened formulas (_originalState (instances w id))
             (_targetState (instances w id)) (_easing (instances w id))
             (position_of now ts (_delay (instances w id)) (_duration (instances w id)))
             key.
Proof.
  intros Hr Hts.
  destruct (processTween_total formulas id now w ts Hr Hts) as (w' & called & Hw' & _).
  exists w'. split; [exact Hw'|]. intros key [x Hk].
  apply processTween_Ok_inv in Hw'
    as (ts' & state & _ & Hts' & _ & _ & [(Hend & Hs & -> & _)|(Hrun & Hs & -> & _)]);
    rewrite Hts in Hts'; injection Hts' as <-.
  - rewrite (position_of_ended _ _ _ _ Hend). set (t := instances w id) in *. cbn.
    destruct (resolves_pass formulas t 1 1 0 1 Hr normalizedPosition_end)
      as (state' & Hs' & Hl).
    rewrite Hs in Hs'. injection Hs' as <-. by rewrite Hl, Hk.
  - rewrite (position_of_running _ _ _ _ Hrun). set (t := instances w id) in *. cbn.
    destruct (Qcltb now (ts + _delay t)) eqn:Hdelay.
    + destruct (resolves_pass formulas t 1 1 1 0 Hr normalizedPosition_start)
        as (state' & Hs' & Hl).
      rewrite Hs in Hs'. injection Hs' as <-. by rewrite Hl, Hk.
    + apply Qcltb_ge in Hdelay.
      destruct (resolves_pass formulas t now (_duration t) (ts + _delay t) _ Hr
                  (normalizedPosition_progress _ _ _ Hdelay Hrun)) as (state' & Hs' & Hl).
      rewrite Hs in Hs'. injection Hs' as <-. by rewrite Hl, Hk.
Qed.

(** X18: the current state after a tick is the interpolation at one position,
    given by the time of the tick, the timestamp, the delay and the duration:
    the start before [timestamp + delay], the end from
    [timestamp + delay + duration] on, and
    [(now - (timestamp + delay)) / duration] in between.  It does not depend
    on the current state before the tick, and so not on earlier ticks. *)
Theorem processTween_closed_form (id : nat) (w : World) (now ts : Qc) :
  resolves formulas (instances w id) ->
  _timestamp (instances w id) = Some ts ->
  exists w',
    processTween formulas id now w = Ok w'
    /\ forall key, is_Some (_currentState (instances w id) !! key) ->
         _currentState (instances w' id) !! key
         = tweened formulas (_originalState (instances w id))
             (_targetState (instances w id)) (_easing (instances w id))
             (position_of now ts (_delay (instances w id)) (_duration (instances w id)))
             key.
Proof. apply processTween_state_at. Qed.

(** X19: [seek(ms)] on an instance that is not playing leaves the state of a
    tick at the clock reading, for the timestamp [clock - max(ms, 0)] that it
    has just stored, wherever the instance was before; the instance is paused
    afterwards. *)
Theorem seek_idle_state (id : nat) (w : World) (millisecond currentTime now' : Qc) :
  resolves formulas (instances w id) ->
  isPlaying id w = false ->
  (forall ts, _timestamp (instances w id) = Some ts ->
     ts + Math_max millisecond 0 <> 0) ->
  exists w',
    seek formulas id millisecond currentTime now' w = Ok w'
    /\ _isPaused (instances w' id) = true
    /\ _timestamp (instances w' id) = Some (currentTime - Math_max millisecond 0)
    /\ forall key, is_Some (_currentState (instances w id) !! key) ->
         _currentState (instances w' id) !! key
         = tweened formulas (_originalState (instances w id))
             (_targetState (instances w id)) (_easing (instances w id))
             (position_of currentTime (currentTime - Math_max millisecond 0)
                (_delay (instances w id)) (_duration (instances w id)))
             key.
Proof.
  intros Hr Hidle Hguard. unfold seek.
  replace (match _timestamp (instances w id) with
           | Some ts => Qceqb (ts + Math_max millisecond 0) 0
           | None => false
           end) with false.
  2:{ symmetry. destruct (_timestamp (instances w id)) as [ts|] eqn:Hts; [|reflexivity].
      apply not_true_iff_false. rewrite Qceqb_eq. by apply Hguard. }
  replace (isPlaying id (modify id (set_timestamp
             (Some (currentTime - Math_max millisecond 0))) w)) with false.
  2:{ symmetry. unfold isPlaying. rewrite instances_modify_same. exact Hidle. }
  cbn [negb].
  match goal with |- context [processTween formulas id currentTime ?w2] =>
    set (w2' := w2) end.
  assert (Hi2 : instances w2' id
                = set_isPaused false
                    (set_isTweening true
                       (set_timestamp (Some (currentTime - Math_max millisecond 0))
                          (instances w id)))).
  { unfold w2'. by rewrite !instances_modify_same. }
  destruct (processTween_state_at id w2' currentTime
              (currentTime - Math_max millisecond 0)) as (w3 & Hw3 & H3);
    [rewrite Hi2; exact Hr|by rewrite Hi2|].
  rewrite Hw3. rewrite Hi2 in H3. cbn in H3.
  exists (pause id now' w3). split; [reflexivity|].
  unfold pause. rewrite instances_modify_same. cbn. split; [reflexivity|].
  split; [|exact H3].
  apply (processTween_same_config formulas) in Hw3.
  destruct Hw3 as (_ & _ & _ & _ & _ & _ & _ & _ & -> & _). by rewrite Hi2.
Qed.

End ClosedForm.

(** ** Instances in and out of step *)

Section InStep.

Variable formulas : gmap string (Qc -> Qc).

(** X20: [set] replaces the current state and nothing else, so a key that it
    brings in and that the easing object has no entry for makes the next
    tick, and [stop(true)], fail: the curve of that key is [undefined] and
    cannot be called (no curve is registered under the name "undefined").
    The key is not to be the name of a member of [Object.prototype], which an
    easing object without an entry of its own would inherit. *)
Theorem set_untracked_key_breaks_tick (id : nat) (state : gmap string Qc)
    (key : string) (w : World) :
  is_Some (state !! key) ->
  inherited key = false ->
  _easing (instances w id) !! key = None ->
  formulas !! "undefined" = None ->
  get id (set id state w) = state
  /\ (forall now w', processTween formulas id now (set id state w) <> Ok w')
  /\ (forall w', stop formulas id true (set id state w) <> Ok w').
Proof.
  intros [x Hk] _ Hentry Hundefined.
  assert (Hcurve : easingOf formulas (_easing (instances w id) !! key) = None)
    by (by rewrite Hentry).
  assert (Hi : instances (set id state w) id = set_currentState state (instances w id)).
  { unfold set. by rewrite instances_modify_same. }
  assert (Hpass : forall forPosition duration timestamp s,
            tweenProps formulas forPosition state (_originalState (instances w id))
              (_targetState (instances w id)) duration timestamp
              (_easing (instances w id)) <> Ok s).
  { intros forPosition duration timestamp s Hs.
    pose proof (tweenProps_fold_inv formulas _ _ _ _ _ _ state state s Hs key) as H.
    rewrite Hk in H. destruct H as (position & v & _ & Hv & _).
    unfold tweened in Hv. by rewrite Hcurve in Hv. }
  split; [unfold get; by rewrite Hi|]. split.
  - intros now w' H. apply processTween_Ok_inv in H
      as (ts & s & _ & _ & _ & _ & [(_ & Hs & _)|(_ & Hs & _)]);
      rewrite Hi in Hs; cbn in Hs.
    + by apply Hpass in Hs.
    + destruct (Qcltb now _); by apply Hpass in Hs.
  - intros w' H. apply stop_true_inv in H. cbv zeta in H.
    destruct H as (_ & s & Hs & _). rewrite Hi in Hs. cbn in Hs. by apply Hpass in Hs.
Qed.

(** X21: an invocation of the loop leaves an instance that is not playing
    exactly as it found it, queued or not: a paused or stopped instance is
    never stepped. *)
Theorem processQueue_leaves_idle_instances (id : nat) (now : Qc) (w w' : World) :
  isPlaying id w = false ->
  processQueue formulas now w = Ok w' ->
  instances w' id = instances w id.
Proof.
  intros Hidle. rewrite processQueue_as_walk, (tick_each_skip formulas now id _ w Hidle).
  intros H. apply tick_each_frame in H as [Hi _]. apply Hi.
  intros Hin. apply list_elem_of_filter in Hin as [Hne _]. by apply Hne.
Qed.

Lemma tick_each_steps now id entries :
  forall w w' ts,
    tick_each formulas now entries w = Ok w' ->
    NoDup entries -> id ∈ entries ->
    isPlaying id w = true ->
    resolves formulas (instances w id) ->
    _timestamp (instances w id) = Some ts ->
    forall key, is_Some (_currentState (instances w id) !! key) ->
      _currentState (instances w' id) !! key
      = tweened formulas (_originalState (instances w id))
          (_targetState (instances w id)) (_easing (instances w id))
          (position_of now ts (_delay (instances w id)) (_duration (instances w id)))
          key.
Proof.
  induction entries as [|j rest IH]; intros w w' ts H Hnd Hin Hplay Hr Hts key Hk.
  - by apply elem_of_nil in Hin.
  - apply NoDup_cons in Hnd as [Hj Hnd]. cbn [tick_each] in H.
    destruct (decide (j = id)) as [->|Hne].
    + rewrite Hplay in H. cbn [negb] in H.
      destruct (processTween_state_at formulas id w now ts Hr Hts) as (w1 & Hw1 & Hstate).
      rewrite Hw1 in H. cbn in H.
      apply tick_each_frame in H as [Hi _]. rewrite (Hi id Hj). by apply Hstate.
    + apply elem_of_cons in Hin as [->|Hin]; [done|].
      destruct (negb (isPlaying j w)); [by apply (IH w w' ts)|].
      destruct (processTween formulas j now w) as [w1|e] eqn:Hw1; [|discriminate].
      cbn in H. apply processTween_Ok_inv in Hw1 as (_ & _ & _ & _ & Hother & _).
      assert (Hsame : instances w1 id = instances w id) by (apply Hother; congruence).
      rewrite <- Hsame. apply (IH w1 w' ts H Hnd Hin); rewrite ?Hsame; try done.
      unfold isPlaying. by rewrite Hsame.
Qed.

(** X22: after an invocation of the loop that returns, every playing
    instance of a queue without duplicates is at the interpolation for the
    position that the shared [now] and its own timestamp, delay and duration
    give, whatever the other instances did, and whether or not it ended in
    this invocation. *)
Theorem processQueue_steps_playing_instances (id : nat) (now ts : Qc) (w w' : World) :
  processQueue formulas now w = Ok w' ->
  NoDup (tweenQueue w) ->
  id ∈ tweenQueue w ->
  isPlaying id w = true ->
  resolves formulas (instances w id) ->
  _timestamp (instances w id) = Some ts ->
  forall key, is_Some (_currentState (instances w id) !! key) ->
    _currentState (instances w' id) !! key
    = tweened formulas (_originalState (instances w id))
        (_targetState (instances w id)) (_easing (instances w id))
        (position_of now ts (_delay (instances w id)) (_duration (instances w id)))
        key.
Proof.
  rewrite processQueue_as_walk. intros H Hnd Hin.
  apply (tick_each_steps now id _ w w' ts H).
  - by rewrite reverse_Permutation.
  - by rewrite elem_of_reverse.
Qed.

End InStep.

(** ** The further properties on the example worlds *)

Lemma world_two_resolves (id : nat) :
  id ∈ tweenQueue world_two ->
  resolves registry (instances world_two id)
  /\ is_Some (_timestamp (instances world_two id)).
Proof.
  replace (tweenQueue world_two) with [1%nat; 0%nat] by by_evaluation.
  intros Hid. apply elem_of_cons in Hid as [->|Hid].
  - split; [|eexists; by_evaluation].
    apply (resolves_singleton registry _ "x" (num 0)); try by_evaluation; by eexists.
  - apply list_elem_of_singleton in Hid as ->.
    split; [|eexists; by_evaluation].
    apply (resolves_singleton registry _ "x" (num 0)); try by_evaluation; by eexists.
Qed.

Lemma tweenProps_result_witness :
  outcome_state (tweenProps registry (num 50) state_x state_x target_x (num 100) 0
                   easing_linear_x) !! "x"
  = Some (num 5).
Proof.
  destruct (tweenProps_result registry (num 50) state_x state_x target_x (num 100) 0
              easing_linear_x) as [_ H].
  destruct (H (outcome_state (tweenProps registry (num 50) state_x state_x target_x
                                (num 100) 0 easing_linear_x))) as [_ Hkey].
  - by_evaluation.
  - destruct (Hkey "x") as (f & a & b & Hf & Ha & Hb & ->); [by eexists|].
    vm_compute in Hf. injection Hf as <-.
    vm_compute in Ha. injection Ha as <-.
    vm_compute in Hb. injection Hb as <-.
    by_evaluation.
Defined.

Lemma processTween_twice_witness :
  exists w'',
    processTween registry 0 (num 50)
      (outcome (processTween registry 0 (num 50) world_linear)) = Ok w''
    /\ _currentState (instances w'' 0)
       = _currentState (instances (outcome (processTween registry 0 (num 50) world_linear)) 0).
Proof.
  apply (processTween_twice registry 0 (num 50) world_linear).
  apply succeeds_outcome. by_evaluation.
Defined.

Lemma processTween_events_witness :
  exists w',
    processTween registry 0 (num 50) world_linear = Ok w'
    /\ tweenQueue w' = tweenQueue world_linear.
Proof.
  destruct (processTween_events registry 0 world_linear (num 50) 0)
    as (w' & Hw' & Hrun & _).
  - exact world_linear_resolves.
  - by_evaluation.
  - exists w'. split; [exact Hw'|].
    destruct Hrun as (_ & Hq & _); [apply Qcltb_lt; by_evaluation|exact Hq].
Defined.

Lemma processTween_position_in_unit_interval_witness :
  exists w' position,
    processTween registry 0 (num 150) world_delayed = Ok w'
    /\ 0 <= position /\ position < 1.
Proof.
  destruct (processTween_position_in_unit_interval registry 0 world_delayed (num 150) 0)
    as (w' & position & Hw' & H0 & H1 & _).
  - exact world_delayed_resolves.
  - by_evaluation.
  - apply Qcleb_le. by_evaluation.
  - apply Qcltb_lt. by_evaluation.
  - by exists w', position.
Defined.

Lemma ticks_total_witness :
  exists w',
    ticks registry 0 [num 50; num 20; num 150] world_linear = Ok w'
    /\ same_config (instances world_linear 0) (instances w' 0)
    /\ resolves registry (instances w' 0).
Proof.
  apply (ticks_total registry 0 [num 50; num 20; num 150] world_linear).
  - exact world_linear_resolves.
  - eexists. by_evaluation.
Defined.

Lemma processQueue_idle_witness :
  processQueue registry (num 50) world_paused = Ok world_paused.
Proof.
  apply (processQueue_idle registry (num 50) world_paused).
  replace (tweenQueue world_paused) with [0%nat] by by_evaluation.
  intros id Hid. apply list_elem_of_singleton in Hid as ->. by_evaluation.
Defined.

Lemma processQueue_frame_witness :
  instances (outcome (processQueue registry (num 100) world_two)) 7 = instances world_two 7
  /\ promises (outcome (processQueue registry (num 100) world_two)) = promises world_two.
Proof.
  destruct (processQueue_frame registry (num 100) world_two
              (outcome (processQueue registry (num 100) world_two)))
    as (Hi & _ & _ & Hp).
  - apply succeeds_outcome. by_evaluation.
  - split; [|exact Hp]. apply Hi.
    replace (tweenQueue world_two) with [1%nat; 0%nat] by by_evaluation.
    intros H. apply elem_of_cons in H as [H|H]; [discriminate|].
    apply list_elem_of_singleton in H. discriminate.
Defined.

Lemma processQueue_total_witness :
  exists w', processQueue registry (num 100) world_two = Ok w'.
Proof.
  apply (processQueue_total registry (num 100) world_two).
  exact world_two_resolves.
Defined.

Lemma setConfig_frame_witness :
  instances (setConfig 0 config_delayed world_linear) 1 = instances world_linear 1.
Proof.
  destruct (setConfig_frame 0 config_delayed world_linear 0 0)
    as ((_ & _ & _ & _ & Hother & _) & _).
  apply Hother. discriminate.
Defined.

Lemma tween_starts_witness :
  exists w',
    tween 1 (Some config_linear) (num 10) (num 10) world_linear
    = Ok (w', Promise (Some (promises world_linear)))
    /\ isPlaying 1 w' = true
    /\ tweenQueue w' = 1%nat :: tweenQueue world_linear.
Proof.
  destruct (tween_starts 1 config_linear (num 10) (num 10) world_linear)
    as (w' & Hw' & Hp & Hq & _).
  - by_evaluation.
  - by exists w'.
Defined.

Lemma tween_without_config_witness : tween 0 None 0 0 world0 = Err TypeError.
Proof.
  destruct (tween_without_config 0 0 0 world0) as [H _].
  - by_evaluation.
  - apply H. by_evaluation.
Defined.

Lemma tween_standalone_starts_witness :
  exists w',
    tween_standalone 3 None (num 10) (num 10) world_linear
    = Ok (w', Promise (Some (promises world_linear)))
    /\ instances w' 0 = instances world_linear 0.
Proof.
  destruct (tween_standalone_starts 3 None (num 10) (num 10) world_linear)
    as (w' & Hw' & _ & _ & _ & _ & Hother).
  exists w'. split; [exact Hw'|]. apply Hother. discriminate.
Defined.

Lemma stop_removes_first_entry_witness :
  0%nat ∉ tweenQueue (outcome (stop registry 0 false world_linear)).
Proof.
  destruct (stop_removes_first_entry registry 0 false world_linear
              (outcome (stop registry 0 false world_linear))) as (_ & H & _).
  - replace (tweenQueue world_linear) with [0%nat] by by_evaluation. by constructor.
  - apply succeeds_outcome. by_evaluation.
  - apply H. replace (tweenQueue world_linear) with [0%nat] by by_evaluation.
    apply NoDup_singleton.
Defined.

Lemma composeEasingObject_recompose_witness :
  composeEasingObject state_x
    (Some (EasingObject (composeEasingObject state_x (Some (EasingObject easing_quad_x)))))
  = composeEasingObject state_x (Some (EasingObject easing_quad_x)).
Proof.
  destruct (composeEasingObject_recompose state_x state_x
              (Some (EasingObject easing_quad_x))) as [H _].
  - intros e He. discriminate.
  - intros key. reflexivity.
  - apply H. intros key [v Hv]. unfold state_x in Hv.
    apply lookup_singleton_Some in Hv as [<- _]. reflexivity.
Defined.

Lemma processTween_closed_form_witness :
  exists w',
    processTween registry 0 (num 50) world_linear = Ok w'
    /\ _currentState (instances w' 0) !! "x" = Some (num 5).
Proof.
  destruct (processTween_closed_form registry 0 world_linear (num 50) 0)
    as (w' & Hw' & Hstate).
  - exact world_linear_resolves.
  - by_evaluation.
  - exists w'. split; [exact Hw'|]. rewrite (Hstate "x"); [by_evaluation|].
    eexists. by_evaluation.
Defined.

Lemma seek_idle_state_witness :
  exists w',
    seek registry 0 (num 50) (num 80) (num 80) world_paused = Ok w'
    /\ _currentState (instances w' 0) !! "x" = Some (num 5).
Proof.
  destruct (seek_idle_state registry 0 world_paused (num 50) (num 80) (num 80))
    as (w' & Hw' & _ & _ & Hstate).
  - exact world_paused_resolves.
  - by_evaluation.
  - intros ts Hts. vm_compute in Hts. injection Hts as <-.
    intros H. apply Qceqb_eq in H. revert H. vm_compute. discriminate.
  - exists w'. split; [exact Hw'|]. rewrite (Hstate "x"); [by_evaluation|].
    eexists. by_evaluation.
Defined.

Lemma set_untracked_key_breaks_tick_witness :
  succeeds (processTween registry 0 (num 50) (set 0 state_y world_linear)) = false.
Proof.
  destruct (set_untracked_key_breaks_tick registry 0 state_y "y" world_linear)
    as (_ & H & _).
  - by eexists.
  - reflexivity.
  - by_evaluation.
  - reflexivity.
  - destruct (processTween registry 0 (num 50) (set 0 state_y world_linear))
      as [w'|e] eqn:E; [|reflexivity].
    exfalso. exact (H _ _ E).
Defined.

Lemma processQueue_leaves_idle_instances_witness :
  instances (outcome (processQueue registry (num 50) world_paused)) 0
  = instances world_paused 0.
Proof.
  apply (processQueue_leaves_idle_instances registry 0 (num 50) world_paused).
  - by_evaluation.
  - apply succeeds_outcome. by_evaluation.
Defined.

Lemma processQueue_steps_playing_instances_witness :
  _currentState (instances (outcome (processQueue registry (num 60) world_two)) 1) !! "x"
  = Some (num 5).
Proof.
  rewrite (processQueue_steps_playing_instances registry 1 (num 60) (num 10) world_two
             (outcome (processQueue registry (num 60) world_two))).
  - by_evaluation.
  - apply succeeds_outcome. by_evaluation.
  - replace (tweenQueue world_two) with [1%nat; 0%nat] by by_evaluation.
    apply NoDup_cons. split; [|apply NoDup_singleton].
    intros H. apply list_elem_of_singleton in H. discriminate.
  - replace (tweenQueue world_two) with [1%nat; 0%nat] by by_evaluation. by constructor.
  - by_evaluation.
  - apply world_two_resolves.
    replace (tweenQueue world_two) with [1%nat; 0%nat] by by_evaluation. by constructor.
  - by_evaluation.
  - eexists. by_evaluation.
Defined.
